(** * A shallow embedding of the single-host MapReduce engine

    The development follows the Python sources of the repository:
    - [src/main.py] and [src/src/python/main.py]: the [Master] (splitting the
      input, spawning and monitoring workers, the fault-injection hook);
    - [src/map.py] and [src/src/python/map.py]: the [Mapper];
    - [src/reduce.py] and [src/src/python/reduce.py]: the [Reducer].

    Conventions of the model:
    - Python [str] is [string]; Python [int] is [Z] (Python's [%] on ints is
      floor modulo, which is [Z.modulo]); list indices are [nat].
    - A Python [dict] is an insertion-ordered association list with unique
      keys ([dict]), because the code iterates dicts and the order of the
      iteration is observable (file write order, [reduced_data]).
    - Files are partial functions from paths to contents: a missing file is
      [None].  Paths are indexed by the integers that the code formats into
      the file names ([{i}.txt], [m{m}r{r}.txt], [{r}.txt]).
    - Exceptions are the constructors of [exc]; a computation that may raise
      returns a [result]; a worker body runs in [proc], which threads the
      trace of observable effects (queue puts, list mutations, file writes)
      and keeps it when an exception is raised. *)

From Stdlib Require Import String Ascii List ZArith Lia Permutation Bool Arith DecimalString Sorted.
From Stdlib Require DecimalZ.
Import ListNotations.

(** ** Exceptions and results *)

Inductive exc :=
| ZeroDivisionError
| FileNotFoundError
| JSONDecodeError
| NameError (name : string).

Inductive result (A : Type) :=
| Ok (a : A)
| Err (e : exc).
Arguments Ok {A} a.
Arguments Err {A} e.

Definition rbind {A B} (r : result A) (k : A -> result B) : result B :=
  match r with Ok a => k a | Err e => Err e end.

Notation "x <- r ;; k" := (rbind r (fun x => k))
  (at level 61, r at next level, right associativity).

(** ** Python dicts: insertion-ordered association lists *)

Section Dict.
Context {K V : Type} (K_eq_dec : forall x y : K, {x = y} + {x <> y}).

Fixpoint dget (k : K) (d : list (K * V)) : option V :=
  match d with
  | [] => None
  | (k', v) :: d' => if K_eq_dec k k' then Some v else dget k d'
  end.

(** [d[k] = f(d[k])] where a missing key starts from [dflt] and is added at
    the end: this is [defaultdict.__getitem__] followed by an in-place
    update, and [setdefault(k, dflt)] followed by a mutation. *)
Fixpoint dupdate (k : K) (f : V -> V) (dflt : V) (d : list (K * V))
    : list (K * V) :=
  match d with
  | [] => [(k, f dflt)]
  | (k', v) :: d' =>
      if K_eq_dec k k' then (k', f v) :: d' else (k', v) :: dupdate k f dflt d'
  end.

(** [d[k] = v] *)
Definition dset (k : K) (v : V) (d : list (K * V)) : list (K * V) :=
  dupdate k (fun _ => v) v d.

End Dict.

(** ** Strings as Python reads and writes text files *)

Definition nl : ascii := ascii_of_nat 10.
Definition nl_str : string := String nl EmptyString.

Fixpoint str_concat (ls : list string) : string :=
  match ls with
  | [] => EmptyString
  | l :: ls' => String.append l (str_concat ls')
  end.

(** Iterating a text file ([for line in reader], [reader.readlines()]): the
    text is cut after every newline; a last fragment without a newline is a
    line of its own. *)
Fixpoint py_lines (s : string) : list string :=
  match s with
  | EmptyString => []
  | String c s' =>
      if Ascii.eqb c nl then nl_str :: py_lines s'
      else match py_lines s' with
           | [] => [String c EmptyString]
           | l :: ls => String c l :: ls
           end
  end.

(** [line.endswith('\n')] *)
Fixpoint ends_nl (s : string) : bool :=
  match s with
  | EmptyString => false
  | String c EmptyString => Ascii.eqb c nl
  | String _ s' => ends_nl s'
  end.

(** [line.rstrip('\n')] *)
Fixpoint drop_nls (l : list ascii) : list ascii :=
  match l with
  | c :: l' => if Ascii.eqb c nl then drop_nls l' else l
  | [] => []
  end.

Definition rstrip_nl (s : string) : string :=
  string_of_list_ascii (rev (drop_nls (rev (list_ascii_of_string s)))).

(** A string without any newline character. *)
Fixpoint nl_free (s : string) : bool :=
  match s with
  | EmptyString => true
  | String c s' => negb (Ascii.eqb c nl) && nl_free s'
  end.

(** ** The splitter: [Master.split_input_data] *)

(** The shard directory [{TMP_DIR}/input]: shard [i] is the file [{i}.txt]. *)
Definition shard_fs := nat -> option string.

Definition fs_empty : shard_fs := fun _ => None.

(** [with open(mapper_file, 'a') as writer: writer.write(line)] *)
Definition append_file (fs : shard_fs) (i : nat) (s : string) : shard_fs :=
  fun j => if Nat.eqb j i
           then Some (String.append (match fs i with Some c => c | None => EmptyString end) s)
           else fs j.

(** [if not line.endswith('\n'): line += '\n'] *)
Definition normalize_line (line : string) : string :=
  if ends_nl line then line else String.append line nl_str.

Fixpoint split_loop (N idx : nat) (lines : list string) (fs : shard_fs)
    : result shard_fs :=
  match lines with
  | [] => Ok fs
  | line :: rest =>
      let line := normalize_line line in
      match N with
      | O => Err ZeroDivisionError
      | S _ => split_loop N (S idx) rest (append_file fs (idx mod N) line)
      end
  end.

(** Returns the shard directory and [self.input_files], the list of the
    [N] shard indices [range(self.num_mappers)]. *)
Definition split_input_data (N : nat) (text : string) : result (shard_fs * list nat) :=
  fs <- split_loop N 0 (py_lines text) fs_empty ;;
  Ok (fs, seq 0 N).

(** [Mapper.__init__]: [with open(self.input_path, 'r') as reader:
    self.input_data = reader.readlines()]. *)
Definition mapper_read_shard (fs : shard_fs) (i : nat) : result (list string) :=
  match fs i with
  | None => Err FileNotFoundError
  | Some c => Ok (py_lines c)
  end.

(** The [Mapper(...)] constructions of [Master.start_process], one per entry
    of [self.input_files], in index order: the first missing shard raises.
    (The loop starts the worker of each mapper right after constructing it,
    so the workers of the shards before a missing one are already running;
    only the construction results are modelled here.) *)
Fixpoint construct_mappers (fs : shard_fs) (files : list nat)
    : result (list (list string)) :=
  match files with
  | [] => Ok []
  | i :: files' =>
      d <- mapper_read_shard fs i ;;
      ds <- construct_mappers fs files' ;;
      Ok (d :: ds)
  end.

(** The lines of shard [i] as a reader sees them; a missing shard has none. *)
Definition shard_lines (fs : shard_fs) (i : nat) : list string :=
  match fs i with None => [] | Some c => py_lines c end.

(** The (normalised) lines of [lines], numbered from [idx], whose number is
    [i] modulo [N], in ascending order. *)
Fixpoint assigned_from (N idx : nat) (lines : list string) (i : nat) : list string :=
  match lines with
  | [] => []
  | l :: r =>
      (if Nat.eqb (idx mod N) i then [normalize_line l] else [])
        ++ assigned_from N (S idx) r i
  end.

(** ** Worker bodies: effects with exceptions *)

Definition proc (E A : Type) := list E -> result A * list E.

Definition pret {E A} (a : A) : proc E A := fun tr => (Ok a, tr).

Definition pbind {E A B} (c : proc E A) (k : A -> proc E B) : proc E B :=
  fun tr => match c tr with
            | (Ok a, tr') => k a tr'
            | (Err e, tr') => (Err e, tr')
            end.

Definition pemit {E} (e : E) : proc E unit := fun tr => (Ok tt, tr ++ [e]).

Definition plift {E A} (r : result A) : proc E A := fun tr => (r, tr).

Notation "x <~ c ;; k" := (pbind c (fun x => k))
  (at level 61, c at next level, right associativity).
Notation "c ;;; k" := (pbind c (fun _ => k))
  (at level 61, right associativity).

(** [for a in l: body(a)] *)
Fixpoint for_each {E A} (body : A -> proc E unit) (l : list A) : proc E unit :=
  match l with
  | [] => pret tt
  | a :: l' => body a ;;; for_each body l'
  end.

(** The trace a worker body leaves when run in a fresh process. *)
Definition trace_of {E A} (c : proc E A) : list E := snd (c []).

(** ** The mapper: [Mapper] of [map.py] *)

(** The status sentinels ['I'] and ['D']. *)
Inductive status := InProgress | Done.

(** A user map function, called as [map_function(idx, line, emit)]: the list
    of [emit(key, value)] calls it makes, in order. *)
Definition map_fn := nat -> string -> list (string * string).

(** A key -> list-of-values mapping: an intermediate bucket, and the
    reducer's [final_dict]. *)
Definition bucket := list (string * list string).

(** [self.map_data]: reducer id -> bucket. *)
Definition map_data := list (Z * bucket).

Record Mapper := {
  mapper_id : nat;
  input_data : list string;
  map_function : map_fn;
  num_reducers : Z
}.

(** [hash(key) % self.num_reducers], where [hash] is the string hash of the
    worker process that runs the mapper. *)
Definition partition (hash : string -> Z) (R : Z) (key : string) : result Z :=
  if Z.eqb R 0 then Err ZeroDivisionError else Ok (Z.modulo (hash key) R).

(** [Mapper.emit_intermediate]:
    [self.map_data[reducer_id][key].append(value)] on the nested
    [defaultdict]. *)
Definition emit_intermediate (hash : string -> Z) (R : Z) (md : map_data)
    (key value : string) : result map_data :=
  r <- partition hash R key ;;
  Ok (dupdate Z.eq_dec r
        (fun b => dupdate string_dec key (fun l => l ++ [value]) [] b) [] md).

Fixpoint emit_all (hash : string -> Z) (R : Z) (md : map_data)
    (ems : list (string * string)) : result map_data :=
  match ems with
  | [] => Ok md
  | (k, v) :: ems' => md' <- emit_intermediate hash R md k v ;; emit_all hash R md' ems'
  end.

(** [for idx, line in enumerate(self.input_data):
       self.map_function(idx, line.rstrip('\n'), self.emit_intermediate)] *)
Fixpoint map_lines (hash : string -> Z) (R : Z) (f : map_fn) (idx : nat)
    (lines : list string) (md : map_data) : result map_data :=
  match lines with
  | [] => Ok md
  | line :: rest =>
      md' <- emit_all hash R md (f idx (rstrip_nl line)) ;;
      map_lines hash R f (S idx) rest md'
  end.

(** Every emission of the mapper's run, in order. *)
Fixpoint emissions (f : map_fn) (idx : nat) (lines : list string)
    : list (string * string) :=
  match lines with
  | [] => []
  | line :: rest => f idx (rstrip_nl line) ++ emissions f (S idx) rest
  end.

(** Observable effects of a map worker. *)
Inductive mevent :=
| MStatus (s : status)     (* [status_queue.put([s, time.time()])] *)
| MAppend (r : Z)          (* [self.reducer_ids.append(r)] *)
| MSort                    (* [self.reducer_ids.sort()] *)
| MPublish                 (* [active_reducers_queue.put(self.reducer_ids)] *)
| MWrite (r : Z) (b : bucket). (* [json.dump(self.map_data[r], ...)] into m{id}r{r}.txt *)

(** [Mapper.write_data] (in [src/src/python/map.py] with [USE_CPP] false,
    the same body): one file per key of [map_data], in insertion order. *)
Definition write_data (md : map_data) : proc mevent unit :=
  for_each (fun '(r, b) => pemit (MAppend r) ;;; pemit (MWrite r b)) md.

Module Top.
(** [Mapper.start_mapper] of [src/map.py]. *)
Definition start_mapper (hash : string -> Z) (m : Mapper) : proc mevent unit :=
  pemit (MStatus InProgress) ;;;
  md <~ plift (map_lines hash (num_reducers m) (map_function m) 0 (input_data m) []) ;;
  pemit MSort ;;;
  pemit MPublish ;;;
  pemit (MStatus Done) ;;;
  write_data md.
End Top.

Module Sub.
(** [Mapper.start_mapper] of [src/src/python/map.py], on the Python path
    ([USE_CPP] false: the [cpp_mapper] extension is built from
    [mapper.cpp], which is not part of the sources). *)
Definition start_mapper (hash : string -> Z) (m : Mapper) : proc mevent unit :=
  pemit (MStatus InProgress) ;;;
  md <~ plift (map_lines hash (num_reducers m) (map_function m) 0 (input_data m) []) ;;
  for_each (fun '(r, _) => pemit (MAppend r)) md ;;;
  pemit MSort ;;;
  write_data md ;;;
  pemit MPublish ;;;
  pemit (MStatus Done).
End Sub.

(** [list.sort()] on a list of ints. *)
Fixpoint insert_Z (x : Z) (l : list Z) : list Z :=
  match l with
  | [] => [x]
  | y :: l' => if Z.leb x y then x :: l else y :: insert_Z x l'
  end.

Fixpoint sort_Z (l : list Z) : list Z :=
  match l with
  | [] => []
  | x :: l' => insert_Z x (sort_Z l')
  end.

(** The value of the shared list [self.reducer_ids] after an effect. *)
Definition ids_step (ids : list Z) (e : mevent) : list Z :=
  match e with
  | MAppend r => ids ++ [r]
  | MSort => sort_Z ids
  | _ => ids
  end.

(** [multiprocessing.Queue.put] hands a reference to the list to the queue's
    feeder thread, which pickles it at some later point before the process
    exits.  The values the consumer can receive are therefore the states of
    [self.reducer_ids] from the [put] to the end of the worker. *)
Fixpoint publish_candidates (ids : list Z) (seen : bool) (evs : list mevent)
    : list (list Z) :=
  match evs with
  | [] => if seen then [ids] else []
  | e :: evs' =>
      (if seen then [ids] else [])
        ++ publish_candidates (ids_step ids e)
             (seen || match e with MPublish => true | _ => false end) evs'
  end.

(** The values a map worker can publish; [self.reducer_ids] is [[]] when
    the worker starts. *)
Definition published (evs : list mevent) : list (list Z) :=
  publish_candidates [] false evs.

(** No intermediate file is written after the Done status was put. *)
Fixpoint writes_before_done (evs : list mevent) : bool :=
  match evs with
  | [] => true
  | MStatus Done :: evs' =>
      forallb (fun e => match e with MWrite _ _ => false | _ => true end) evs'
  | _ :: evs' => writes_before_done evs'
  end.

(** ** The reducer: [Reducer] of [reduce.py] *)

(** The content of an intermediate file [m{m}r{r}.txt]: a complete JSON
    document, or one cut short because its writer was terminated while
    writing it. *)
Inductive content :=
| Complete (b : bucket)
| Truncated.

(** The intermediate directory: [ifs m r] is the file [m{m}r{r}.txt]. *)
Definition inter_fs := nat -> Z -> option content.

Definition inter_empty : inter_fs := fun _ _ => None.

(** [for key, values in data.items():
       self.final_dict.setdefault(key, []).extend(values)] *)
Definition extend_bucket (acc : bucket) (data : bucket) : bucket :=
  fold_left (fun acc '(k, vs) => dupdate string_dec k (fun l => l ++ vs) [] acc)
    data acc.

Fixpoint load_loop (ifs : inter_fs) (r : Z) (ms : list nat) (acc : bucket)
    : result bucket :=
  match ms with
  | [] => Ok acc
  | m :: ms' =>
      match ifs m r with
      | None => load_loop ifs r ms' acc
      | Some Truncated => Err JSONDecodeError
      | Some (Complete data) => load_loop ifs r ms' (extend_bucket acc data)
      end
  end.

(** [Reducer.load_intermediate_data] (the same loop in both trees). *)
Definition load_intermediate_data (ifs : inter_fs) (num_mappers : nat) (r : Z)
    : result bucket :=
  load_loop ifs r (seq 0 num_mappers) [].

(** A user reduce function, called as [reduce_function(key, values, emit)]:
    the list of [emit_final(key, value)] calls it makes, in order. *)
Definition reduce_fn := string -> list string -> list (string * string).

(** [Reducer.emit_final]: [self.reduced_data[key] = value]. *)
Definition emit_final (reduced_data : list (string * string)) (key value : string)
    : list (string * string) :=
  dset string_dec key value reduced_data.

(** [for key, values in self.final_dict.items():
       self.reduce_function(key, values, self.emit_final)] *)
Definition reduce_loop (f : reduce_fn) (final_dict : bucket)
    (reduced_data : list (string * string)) : list (string * string) :=
  fold_left
    (fun rd '(k, vs) => fold_left (fun rd '(k', v) => emit_final rd k' v) (f k vs) rd)
    final_dict reduced_data.

Record Reducer := {
  reducer_id : Z;
  reduce_function : reduce_fn;
  final_dict : bucket  (* filled by [load_intermediate_data] in [__init__] *)
}.

(** Observable effects of a reduce worker. *)
Inductive revent :=
| RStatus (s : status)                      (* [status_queue.put([s, time.time()])] *)
| RWrite (r : Z) (out : list (string * string)). (* [json.dump(self.reduced_data, ...)] into {r}.txt *)

(** Name resolution of a global name inside a function of a module: the
    module's namespace, then the builtins (none of which is [time]). *)
Definition load_global (module_globals : list string) (x : string) : result unit :=
  if existsb (String.eqb x) module_globals then Ok tt else Err (NameError x).

Module TopR.
(** The global namespace of [src/reduce.py]: [import json], [import os],
    [class Reducer]. *)
Definition module_globals : list string := ["json"; "os"; "Reducer"]%string.

(** [Reducer.start_reducer] of [src/reduce.py].  The argument
    [['I', time.time()]] of [put] is evaluated before the call. *)
Definition start_reducer (rdr : Reducer) : proc revent unit :=
  plift (load_global module_globals "time"%string) ;;;
  pemit (RStatus InProgress) ;;;
  let rd := reduce_loop (reduce_function rdr) (final_dict rdr) [] in
  plift (load_global module_globals "time"%string) ;;;
  pemit (RStatus Done) ;;;
  pemit (RWrite (reducer_id rdr) rd).
End TopR.

Module SubR.
(** The global namespace of [src/src/python/reduce.py]. *)
Definition module_globals : list string :=
  ["json"; "os"; "time"; "USE_CPP"; "Reducer"]%string.

(** [Reducer.start_reducer] of [src/src/python/reduce.py] on the Python
    path ([USE_CPP] false). *)
Definition start_reducer (rdr : Reducer) : proc revent unit :=
  plift (load_global module_globals "time"%string) ;;;
  pemit (RStatus InProgress) ;;;
  let rd := reduce_loop (reduce_function rdr) (final_dict rdr) [] in
  pemit (RWrite (reducer_id rdr) rd) ;;;
  plift (load_global module_globals "time"%string) ;;;
  pemit (RStatus Done).
End SubR.

(** ** The supervisor: [Master.monitor_mappers] and [Master.monitor_reducers] *)

(** Supervisor actions on worker processes and its console output. *)
Inductive mon_event :=
| MonJoin (idx : nat)        (* [self.processes[idx].join()] *)
| MonTerminate (idx : nat)   (* [self.processes[idx].terminate()] *)
| MonSpawn (idx : nat)       (* new queues and [mp.Process(...).start()] *)
| MonLog (idx : nat).        (* [print(f"Mapper {idx} has crashed, restarting...")] *)

(** One [status_queues[idx].get(timeout=self.timeout)] call: [Some s] when a
    message with status [s] arrives, [None] when [queue.Empty] is raised. *)
Definition receiver := nat -> option status.

(** [Master.retry_mapper]. *)
Definition retry_mapper (idx : nat) : list mon_event :=
  [MonLog idx; MonTerminate idx; MonSpawn idx].

(** One pass of [for idx, status in enumerate(self.mapper_status)] in
    [monitor_mappers]. *)
Fixpoint mappers_pass (recv : receiver) (idx : nat) (st : list bool)
    : list bool * list mon_event :=
  match st with
  | [] => ([], [])
  | false :: st' =>
      let '(st'', ev) := mappers_pass recv (S idx) st' in (false :: st'', ev)
  | true :: st' =>
      let '(st'', ev) := mappers_pass recv (S idx) st' in
      match recv idx with
      | Some Done => (false :: st'', MonJoin idx :: ev)
      | Some InProgress => (true :: st'', ev)
      | None => (true :: st'', retry_mapper idx ++ ev)
      end
  end.

(** One pass of [for idx, status in enumerate(self.reducer_status)] in
    [monitor_reducers]: [except Exception: pass]. *)
Fixpoint reducers_pass (recv : receiver) (idx : nat) (st : list bool)
    : list bool * list mon_event :=
  match st with
  | [] => ([], [])
  | false :: st' =>
      let '(st'', ev) := reducers_pass recv (S idx) st' in (false :: st'', ev)
  | true :: st' =>
      let '(st'', ev) := reducers_pass recv (S idx) st' in
      match recv idx with
      | Some Done => (false :: st'', MonJoin idx :: ev)
      | Some InProgress => (true :: st'', ev)
      | None => (true :: st'', ev)
      end
  end.

(** [while any(self.reducer_status): ...], run for at most [fuel] passes;
    [recvs p] answers the receives of pass [p].  The boolean says whether
    the loop exited. *)
Fixpoint monitor_reducers (fuel p : nat) (recvs : nat -> receiver)
    (st : list bool) : bool * list mon_event :=
  if existsb (fun b => b) st then
    match fuel with
    | O => (false, [])
    | S fuel' =>
        let '(st', ev) := reducers_pass (recvs p) 0 st in
        let '(fin, ev') := monitor_reducers fuel' (S p) recvs st' in
        (fin, ev ++ ev')
    end
  else (true, []).

(** ** A whole job, with the fault-injection hook *)

(** The intermediate files a worker leaves after the effects [evs]. *)
Definition apply_write (m : nat) (ifs : inter_fs) (e : mevent) : inter_fs :=
  match e with
  | MWrite r b =>
      fun m' r' => if Nat.eqb m' m && Z.eqb r' r then Some (Complete b) else ifs m' r'
  | _ => ifs
  end.

Definition run_writes (m : nat) (ifs : inter_fs) (evs : list mevent) : inter_fs :=
  fold_left (apply_write m) evs ifs.

(** A map worker terminated after [j] effects of its trace; when [cut] is
    set and the next effect writes a file, the file is left truncated. *)
Definition killed_writes (m : nat) (ifs : inter_fs) (evs : list mevent)
    (j : nat) (cut : bool) : inter_fs :=
  let ifs' := run_writes m ifs (firstn j evs) in
  match cut, nth_error evs j with
  | true, Some (MWrite r _) =>
      fun m' r' => if Nat.eqb m' m && Z.eqb r' r then Some Truncated else ifs' m' r'
  | _, _ => ifs'
  end.

(** The intermediate directory at the map barrier.  [kill] is
    [Some (kill_idx, j, cut)] when the mapper at position [kill_idx] is
    terminated after spawn (having done [j] effects, see [killed_writes]);
    [retry_mapper] later respawns [start_mapper] on the master's copy of the
    same [Mapper], which runs it from scratch in a process with the run's
    string hash.  Mappers write disjoint files, so running the workers one
    after the other gives the same directory as any interleaving. *)
Definition map_phase (hash : string -> Z) (mappers : list Mapper)
    (kill : option (nat * nat * bool)) : inter_fs :=
  let ifs1 :=
    match kill with
    | None => inter_empty
    | Some (k, j, cut) =>
        match nth_error mappers k with
        | Some mp => killed_writes (mapper_id mp) inter_empty
                       (trace_of (Sub.start_mapper hash mp)) j cut
        | None => inter_empty
        end
    end in
  fold_left (fun ifs mp => run_writes (mapper_id mp) ifs (trace_of (Sub.start_mapper hash mp)))
    mappers ifs1.

(** The reducers [0 .. R-1] after the map barrier: each loads its
    intermediate files in [__init__] (in the master) and reduces. *)
Definition reduce_phase (ifs : inter_fs) (num_mappers R : nat) (f : reduce_fn)
    : result (list (list (string * string))) :=
  fold_right
    (fun r acc =>
       fd <- load_intermediate_data ifs num_mappers (Z.of_nat r) ;;
       outs <- acc ;;
       Ok (reduce_loop f fd [] :: outs))
    (Ok []) (seq 0 R).

(** The output files of a job whose mappers are [mappers], run in processes
    sharing the string hash [hash]. *)
Definition run_job (hash : string -> Z) (mappers : list Mapper) (R : nat)
    (f : reduce_fn) (kill : option (nat * nat * bool))
    : result (list (list (string * string))) :=
  reduce_phase (map_phase hash mappers kill) (length mappers) R f.

(** ** Observations used in the statements *)

(** The effects of [write_data] on [map_data]. *)
Definition write_evs (md : map_data) : list mevent :=
  flat_map (fun '(r, b) => [MAppend r; MWrite r b]) md.

(** The value list of [key] in a bucket, [[]] when absent. *)
Definition values_in (b : bucket) (key : string) : list string :=
  match dget string_dec key b with Some vs => vs | None => [] end.

(** The value list of [key] in an intermediate file, [[]] when the file is
    missing. *)
Definition file_values (c : option content) (key : string) : list string :=
  match c with Some (Complete b) => values_in b key | _ => [] end.

(** The value list of [key] in [map_data[r]]. *)
Definition bucket_vals (md : map_data) (r : Z) (key : string) : list string :=
  match dget Z.eq_dec r md with Some b => values_in b key | None => [] end.

(** The value of the last of the calls [ems] made with [key], if any. *)
Definition last_emit (key : string) (ems : list (string * string)) : option string :=
  fold_left (fun acc '(k, v) => if string_dec key k then Some v else acc) ems None.

(** The bucket of the last write of file [r] in the effects [evs]. *)
Fixpoint last_write (r : Z) (evs : list mevent) : option bucket :=
  match evs with
  | [] => None
  | e :: evs' =>
      match last_write r evs' with
      | Some b => Some b
      | None => match e with MWrite r0 b => if Z.eqb r r0 then Some b else None | _ => None end
      end
  end.

(** A user map that emits each line with the value ["1"] (the identity job
    of the spec's scenario 3). *)
Definition emit_line_map : map_fn := fun _ line => [(line, "1"%string)].

(** A user reduce that emits the concatenation of the values of a key. *)
Definition concat_reduce : reduce_fn := fun k vs => [(k, str_concat vs)].

(** Mapper 0 of a job with one reducer, whose shard is the line ["a\n"]. *)
Definition one_line_mapper : Mapper :=
  {| mapper_id := 0; input_data := [String "a" nl_str];
     map_function := emit_line_map; num_reducers := 1 |}.

(** The same shard in a job with two reducers. *)
Definition one_line_mapper2 : Mapper :=
  {| mapper_id := 0; input_data := [String "a" nl_str];
     map_function := emit_line_map; num_reducers := 2 |}.


(** Intermediate files for reducer 0 from two mappers: [m0r0.txt] holds
    [{"a": ["1"]}] and [m1r0.txt] holds [{"a": ["2", "3"]}]. *)
Definition two_mapper_files : inter_fs :=
  fun m r =>
    match m, r with
    | 0, 0%Z => Some (Complete [("a"%string, ["1"%string])])
    | 1, 0%Z => Some (Complete [("a"%string, ["2"%string; "3"%string])])
    | _, _ => None
    end.

(** Status queues on which every receive times out. *)
Definition never_answers : nat -> receiver := fun _ _ => None.

(** The corpus ["a\nb\nc"]. *)
Definition corpus_abc : string :=
  str_concat ["a"; nl_str; "b"; nl_str; "c"]%string.

(** ** The supervisor loop of the map phase *)

(** [Master.monitor_mappers]: [while any(self.mapper_status): ...], run for
    at most [fuel] passes; [recvs p] answers the receives of pass [p].  The
    boolean says whether the loop exited.  (The
    [self.active_reducers += self.reducer_queues[idx].get()] after a Done
    has no effect on the workers and is left out.) *)
Fixpoint monitor_mappers (fuel p : nat) (recvs : nat -> receiver)
    (st : list bool) : bool * list mon_event :=
  if existsb (fun b => b) st then
    match fuel with
    | O => (false, [])
    | S fuel' =>
        let '(st', ev) := mappers_pass (recvs p) 0 st in
        let '(fin, ev') := monitor_mappers fuel' (S p) recvs st' in
        (fin, ev ++ ev')
    end
  else (true, []).

(** The number of [join] calls on worker [idx] among the effects [evs]. *)
Definition joins (idx : nat) (evs : list mon_event) : nat :=
  length (filter (fun e => match e with MonJoin i => Nat.eqb i idx | _ => false end) evs).

(** The number of respawns of worker [idx] among the effects [evs]. *)
Definition spawns (idx : nat) (evs : list mon_event) : nat :=
  length (filter (fun e => match e with MonSpawn i => Nat.eqb i idx | _ => false end) evs).

(** Whether one of the effects [evs] acts on, or reports about, worker
    [idx]. *)
Definition touches (idx : nat) (evs : list mon_event) : bool :=
  existsb (fun e => match e with
                    | MonJoin i | MonTerminate i | MonSpawn i | MonLog i => Nat.eqb i idx
                    end) evs.

(** The reducer ids of the intermediate files written in the effects [evs],
    in order. *)
Definition written_ids (evs : list mevent) : list Z :=
  flat_map (fun e => match e with MWrite r _ => [r] | _ => [] end) evs.

(** The values the mappers [mappers] emit for [key]: mapper by mapper in list
    order, each mapper's in emission order. *)
Definition key_values (mappers : list Mapper) (key : string) : list string :=
  flat_map (fun mp => map snd (filter (fun e => String.eqb (fst e) key)
                                 (emissions (map_function mp) 0 (input_data mp))))
    mappers.

(** ** The example jobs of [src/src/python/main.py] *)

(** A character of a string is a code point in [U+0000 .. U+00FF]; the
    predicates below are Python's [str] methods on that range. *)
Definition in_range (lo hi n : nat) : bool := Nat.leb lo n && Nat.leb n hi.

(** [c.isspace()], the separators of [str.split()] and [str.strip()]. *)
Definition is_space (c : ascii) : bool :=
  let n := nat_of_ascii c in
  in_range 9 13 n || in_range 28 32 n || Nat.eqb n 133 || Nat.eqb n 160.

(** [c.isalnum()] *)
Definition is_alnum (c : ascii) : bool :=
  let n := nat_of_ascii c in
  in_range 48 57 n || in_range 65 90 n || in_range 97 122 n
  || Nat.eqb n 170 || in_range 178 179 n || Nat.eqb n 181 || in_range 185 186 n
  || in_range 188 190 n || in_range 192 214 n || in_range 216 246 n
  || in_range 248 255 n.

(** [c.lower()], a single character on this range. *)
Definition lower_char (c : ascii) : ascii :=
  let n := nat_of_ascii c in
  if in_range 65 90 n || in_range 192 214 n || in_range 216 222 n
  then ascii_of_nat (n + 32) else c.

Fixpoint str_map (f : ascii -> ascii) (s : string) : string :=
  match s with
  | EmptyString => EmptyString
  | String c s' => String (f c) (str_map f s')
  end.

Fixpoint str_filter (p : ascii -> bool) (s : string) : string :=
  match s with
  | EmptyString => EmptyString
  | String c s' => if p c then String c (str_filter p s') else str_filter p s'
  end.

Fixpoint drop_while (p : ascii -> bool) (l : list ascii) : list ascii :=
  match l with
  | c :: l' => if p c then drop_while p l' else l
  | [] => []
  end.

(** Both ends of [l] stripped of the characters [p] holds of. *)
Definition strip_by (p : ascii -> bool) (l : list ascii) : list ascii :=
  rev (drop_while p (rev (drop_while p l))).

(** [s.strip()] *)
Definition py_strip (s : string) : string :=
  string_of_list_ascii (strip_by is_space (list_ascii_of_string s)).

(** [s.split()]: the maximal runs of non-whitespace characters; [cur] is the
    current run, reversed. *)
Fixpoint split_acc (cur : list ascii) (cs : list ascii) : list string :=
  match cs with
  | [] => match cur with [] => [] | _ => [string_of_list_ascii (rev cur)] end
  | c :: cs' =>
      if is_space c
      then match cur with
           | [] => split_acc [] cs'
           | _ => string_of_list_ascii (rev cur) :: split_acc [] cs'
           end
      else split_acc (c :: cur) cs'
  end.

Definition py_split (s : string) : list string := split_acc [] (list_ascii_of_string s).

(** [word = word.strip().lower()];
    [word = ''.join(c for c in word if c.isalnum())] *)
Definition normalize_word (word : string) : string :=
  str_filter is_alnum (str_map lower_char (py_strip word)).

(** The decimal text of an [int], as [str(n)] returns it when the digit
    limit below lets it return ([py_str_lim]). *)
Definition py_str (z : Z) : string := NilZero.string_of_int (Z.to_int z).

(** The whitespace [int()] skips around a literal: the ASCII [Py_ISSPACE]
    characters, and U+0085 and U+00A0, which its Unicode pass turns into
    spaces. *)
Definition is_int_space (c : ascii) : bool :=
  let n := nat_of_ascii c in
  in_range 9 13 n || Nat.eqb n 32 || Nat.eqb n 133 || Nat.eqb n 160.

Definition is_digit (c : ascii) : bool := in_range 48 57 (nat_of_ascii c).

(** The number of digit characters of a string. *)
Definition digit_count (s : string) : nat :=
  length (filter is_digit (list_ascii_of_string s)).

(** CPython's limit on base-10 conversions between [str] and [int]
    ([PyLong_FromString] and [long_to_decimal_string_internal], from 3.11
    and in the security releases of 3.7 to 3.10): [max_digits] is
    [sys.get_int_max_str_digits()], [4300] by default and [0] for no limit
    (the behaviour of the releases without the check).  A conversion of [n]
    digits raises [ValueError] when [max_digits] is not [0] and [n] exceeds
    both [_PY_LONG_MAX_STR_DIGITS_THRESHOLD = 640] and [max_digits]. *)
Definition digits_allowed (max_digits n : nat) : bool :=
  Nat.eqb max_digits 0 || Nat.leb n 640 || Nat.leb n max_digits.

(** [str(z)] under the limit [max_digits]; [None] is its [ValueError]
    (the sign is not counted). *)
Definition py_str_lim (max_digits : nat) (z : Z) : option string :=
  if digits_allowed max_digits (digit_count (py_str z)) then Some (py_str z) else None.

(** The digits of a base-10 literal: non-empty, and every [_] is between two
    digits; [prev_digit] says whether the previous character was a digit. *)
Fixpoint digits_ok (prev_digit : bool) (cs : list ascii) : bool :=
  match cs with
  | [] => prev_digit
  | c :: cs' =>
      if is_digit c then digits_ok true cs'
      else if Ascii.eqb c "_"%char then prev_digit && digits_ok false cs'
      else false
  end.

(** [int(s)] for a [str] [s] under the limit [max_digits] on the number of
    digits; [None] is the [ValueError] it raises. *)
Definition py_int (max_digits : nat) (s : string) : option Z :=
  let cs := strip_by is_int_space (list_ascii_of_string s) in
  let '(neg, body) :=
    match cs with
    | c :: b =>
        if Ascii.eqb c "-"%char then (true, b)
        else if Ascii.eqb c "+"%char then (false, b)
        else (false, cs)
    | [] => (false, [])
    end in
  if digits_ok false body && digits_allowed max_digits (length (filter is_digit body)) then
    option_map (fun u => Z.of_int (if neg then Decimal.Neg u else Decimal.Pos u))
      (NilEmpty.uint_of_string (string_of_list_ascii (filter is_digit body)))
  else None.

(** [word_count_map(key, value, emit)]: each word of the line, normalised,
    with the value ["1"]; a word that normalises to [''] is skipped. *)
Definition word_count_map : map_fn :=
  fun _ value =>
    flat_map (fun word =>
                let w := normalize_word word in
                if String.eqb w EmptyString then [] else [(w, "1"%string)])
      (py_split (py_strip value)).

(** [sum(int(count) for count in values)]; [None] is the [ValueError] of
    the first count that is not an integer literal. *)
Fixpoint sum_ints (max_digits : nat) (values : list string) : option Z :=
  match values with
  | [] => Some 0%Z
  | v :: vs =>
      match py_int max_digits v with
      | None => None
      | Some z => option_map (Z.add z) (sum_ints max_digits vs)
      end
  end.

(** [word_count_reduce(key, values, emit)] with the digit limit
    [max_digits]: its [emit_final] calls, or [None] when [int(count)] or
    [str(total)] raises [ValueError]. *)
Definition word_count_reduce (max_digits : nat) (key : string) (values : list string)
    : option (list (string * string)) :=
  match sum_ints max_digits values with
  | Some total =>
      match py_str_lim max_digits total with
      | Some s => Some [(key, s)]
      | None => None
      end
  | None => None
  end.

(** [inverted_index_map(doc_id, content, emit)]: each word of the line,
    normalised, with the value [str(doc_id)].  [doc_id] is the index of a
    line in the list [readlines()] returns, so below [sys.maxsize < 10^19]:
    [str(doc_id)] has at most 19 digits and never meets the digit limit. *)
Definition inverted_index_map : map_fn :=
  fun doc_id content =>
    flat_map (fun word =>
                let w := normalize_word word in
                if String.eqb w EmptyString then []
                else [(w, py_str (Z.of_nat doc_id))])
      (py_split (py_strip content)).

(** [a < b] on [str]: lexicographic on code points. *)
Fixpoint str_ltb (a b : string) : bool :=
  match a, b with
  | _, EmptyString => false
  | EmptyString, String _ _ => true
  | String c a', String d b' =>
      Nat.ltb (nat_of_ascii c) (nat_of_ascii d)
      || (Nat.eqb (nat_of_ascii c) (nat_of_ascii d) && str_ltb a' b')
  end.

(** [sorted(l)] on strings: a stable insertion sort. *)
Fixpoint insert_str (x : string) (l : list string) : list string :=
  match l with
  | [] => [x]
  | y :: l' => if str_ltb y x then y :: insert_str x l' else x :: l
  end.

Fixpoint sort_str (l : list string) : list string :=
  match l with
  | [] => []
  | x :: l' => insert_str x (sort_str l')
  end.

(** [','.join(l)] *)
Fixpoint join_comma (l : list string) : string :=
  match l with
  | [] => EmptyString
  | [x] => x
  | x :: l' => String.append x (String "," (join_comma l'))
  end.

(** [inverted_index_reduce(word, doc_ids, emit)]:
    [emit(word, ','.join(sorted(set(doc_ids))))]; [nodup] keeps one copy of
    each id, and as the ids are then distinct [sorted] gives the same list
    whatever the iteration order of the set. *)
Definition inverted_index_reduce : reduce_fn :=
  fun word doc_ids => [(word, join_comma (sort_str (nodup string_dec doc_ids)))].

(** The normalised words [word_count_map] emits for a line. *)
Definition line_words (line : string) : list string :=
  map fst (word_count_map 0 line).

(** How often [w] occurs among the words of the lines the mappers [mappers]
    read (each line with its newline stripped, as [start_mapper] passes it). *)
Definition word_occurrences (mappers : list Mapper) (w : string) : nat :=
  count_occ string_dec
    (flat_map (fun mp => flat_map (fun l => line_words (rstrip_nl l)) (input_data mp))
       mappers) w.

(** The shape [emit_intermediate] keeps [self.map_data] in: one entry per
    reducer id, each id in [[0, R)], and in the bucket of [r] each key once,
    with a non-empty value list, and routed to [r]. *)
Definition map_data_ok (hash : string -> Z) (R : Z) (md : map_data) : Prop :=
  NoDup (map fst md) /\
  forall r b, In (r, b) md ->
    (0 <= r < R)%Z /\ NoDup (map fst b) /\
    forall k vs, In (k, vs) b -> vs <> [] /\ Z.modulo (hash k) R = r.

(** The same shard in a job configured with zero reducers. *)
Definition one_line_mapper0 : Mapper :=
  {| mapper_id := 0; input_data := [String "a" nl_str];
     map_function := emit_line_map; num_reducers := 0 |}.

(** Intermediate files for reducer 0 where [m0r0.txt] was cut short. *)
Definition corrupt_first_file : inter_fs :=
  fun m r =>
    match m, r with
    | 0, 0%Z => Some Truncated
    | 1, 0%Z => Some (Complete [("a"%string, ["2"%string])])
    | _, _ => None
    end.

(** The [self.map_data] a mapper's loop over its lines ends with ([[]] when
    it raised). *)
Definition mapper_output (hash : string -> Z) (mp : Mapper) : map_data :=
  match map_lines hash (num_reducers mp) (map_function mp) 0 (input_data mp) [] with
  | Ok md => md
  | Err _ => []
  end.

(** Mapper 0 of a word-count job with one reducer, whose shard is the line
    ["a b a"]. *)
Definition wc_mapper : Mapper :=
  {| mapper_id := 0; input_data := ["a b a"%string];
     map_function := word_count_map; num_reducers := 1 |}.

(** A line as the splitter writes it: a newline-free body and one newline. *)
Definition single_nl_line (l : string) : Prop :=
  exists body, nl_free body = true /\ l = String.append body nl_str.

(** A bucket as [write_data] dumps it: each key once, with a non-empty
    value list. *)
Definition bucket_ok (b : bucket) : Prop :=
  NoDup (map fst b) /\ forall k vs, In (k, vs) b -> vs <> [].

(** * Lemmas *)

Section DictLemmas.
Context {K V : Type} (K_eq_dec : forall x y : K, {x = y} + {x <> y}).

Lemma dget_dupdate (k k' : K) (f : V -> V) (dflt : V) (d : list (K * V)) :
  dget K_eq_dec k (dupdate K_eq_dec k' f dflt d) =
    if K_eq_dec k k' then Some (f (match dget K_eq_dec k' d with Some v => v | None => dflt end))
    else dget K_eq_dec k d.
Proof.
  induction d as [|[k0 v0] d IH]; simpl.
  - destruct (K_eq_dec k k'); simpl; destruct (K_eq_dec k k'); congruence.
  - destruct (K_eq_dec k' k0) as [E|E]; simpl.
    + subst k0. destruct (K_eq_dec k k'); reflexivity.
    + destruct (K_eq_dec k k0) as [E'|E'].
      * subst k0. destruct (K_eq_dec k k'); congruence.
      * rewrite IH. reflexivity.
Qed.
End DictLemmas.

(** ** Strings *)

Lemma str_append_assoc (a b c : string) :
  String.append (String.append a b) c = String.append a (String.append b c).
Proof. induction a as [|x a IH]; simpl; [reflexivity | now rewrite IH]. Qed.

Lemma str_append_empty_r (a : string) : String.append a EmptyString = a.
Proof. induction a as [|x a IH]; simpl; [reflexivity | now rewrite IH]. Qed.

Lemma nl_eqb_refl : Ascii.eqb nl nl = true.
Proof. reflexivity. Qed.

Lemma py_lines_line (body rest : string) :
  nl_free body = true ->
  py_lines (String.append body (String.append nl_str rest))
  = String.append body nl_str :: py_lines rest.
Proof.
  induction body as [|c body IH]; intros Hf; cbn [String.append py_lines].
  - reflexivity.
  - simpl in Hf. apply andb_prop in Hf as [Hc Hf].
    apply negb_true_iff in Hc. rewrite Hc, (IH Hf). reflexivity.
Qed.

Lemma py_lines_concat (ls : list string) :
  Forall single_nl_line ls -> py_lines (str_concat ls) = ls.
Proof.
  induction 1 as [|l ls [body [Hf ->]] _ IH]; cbn [str_concat].
  - reflexivity.
  - rewrite str_append_assoc, (py_lines_line _ _ Hf), IH. reflexivity.
Qed.

(** Every line Python reads is a newline-free body followed by a newline,
    or a non-empty newline-free last fragment. *)
Lemma py_lines_shape (s l : string) :
  In l (py_lines s) ->
  exists body, nl_free body = true /\
    (l = String.append body nl_str \/ (l = body /\ body <> EmptyString)).
Proof.
  revert l. induction s as [|c s IH]; intros l Hin; simpl in Hin.
  - contradiction.
  - destruct (Ascii.eqb c nl) eqn:Hc.
    + destruct Hin as [<-|Hin]; [|now apply IH].
      exists EmptyString. split; [reflexivity | now left].
    + destruct (py_lines s) as [|l0 ls] eqn:Hs.
      * destruct Hin as [<-|[]].
        exists (String c EmptyString). simpl. rewrite Hc.
        split; [reflexivity | right; split; [reflexivity | discriminate]].
      * destruct Hin as [<-|Hin]; [|apply IH; now right].
        destruct (IH l0 (or_introl eq_refl)) as [body [Hf Hl]].
        exists (String c body). simpl. rewrite Hc, Hf. split; [reflexivity|].
        destruct Hl as [->|[-> _]]; [now left | right; split; [reflexivity | discriminate]].
Qed.

Lemma ends_nl_line (body : string) : ends_nl (String.append body nl_str) = true.
Proof.
  induction body as [|c body IH]; [reflexivity|].
  simpl. destruct (String.append body nl_str) eqn:E.
  - destruct body; discriminate.
  - exact IH.
Qed.

Lemma ends_nl_free (body : string) :
  nl_free body = true -> ends_nl body = false.
Proof.
  induction body as [|c body IH]; intros Hf; [reflexivity|].
  simpl in Hf. apply andb_prop in Hf as [Hc Hf]. apply negb_true_iff in Hc.
  simpl. destruct body; [exact Hc | exact (IH Hf)].
Qed.

Lemma normalize_py_line (s l : string) :
  In l (py_lines s) -> single_nl_line (normalize_line l).
Proof.
  intros Hin. destruct (py_lines_shape s l Hin) as [body [Hf [->|[-> _]]]];
    exists body; unfold normalize_line.
  - rewrite ends_nl_line. split; [exact Hf | reflexivity].
  - rewrite (ends_nl_free _ Hf). split; [exact Hf | reflexivity].
Qed.

(** ** The splitter *)

Lemma assigned_from_in (N idx : nat) (lines : list string) (i : nat) (x : string) :
  In x (assigned_from N idx lines i) -> exists l, In l lines /\ x = normalize_line l.
Proof.
  revert idx. induction lines as [|l r IH]; intros idx Hin; simpl in Hin; [contradiction|].
  apply in_app_or in Hin as [Hin|Hin].
  - destruct (Nat.eqb (idx mod N) i); [|contradiction].
    destruct Hin as [<-|[]]. exists l. split; [now left | reflexivity].
  - destruct (IH _ Hin) as [l' [Hl' ->]]. exists l'. split; [now right | reflexivity].
Qed.

Lemma split_loop_spec (N idx : nat) (lines : list string) (fs : shard_fs) :
  N <> 0 ->
  exists fs', split_loop N idx lines fs = Ok fs' /\
    forall i, fs' i =
      match assigned_from N idx lines i with
      | [] => fs i
      | ls => Some (String.append (match fs i with Some c => c | None => EmptyString end)
                                  (str_concat ls))
      end.
Proof.
  intros HN. revert idx fs. induction lines as [|l r IH]; intros idx fs.
  - exists fs. split; [reflexivity | intros i; reflexivity].
  - destruct N as [|N']; [congruence|].
    destruct (IH (S idx) (append_file fs (idx mod S N') (normalize_line l)))
      as [fs' [Hrun Hfs']].
    exists fs'. split; [exact Hrun|]. intros i. rewrite Hfs'. cbn [assigned_from].
    unfold append_file. rewrite (Nat.eqb_sym i (idx mod S N')).
    destruct (Nat.eqb (idx mod S N') i) eqn:E.
    + apply Nat.eqb_eq in E. subst i. cbn [app].
      destruct (assigned_from (S N') (S idx) r (idx mod S N')) as [|x xs];
        cbn [str_concat].
      * now rewrite str_append_empty_r.
      * now rewrite str_append_assoc.
    + cbn [app]. destruct (assigned_from (S N') (S idx) r i); reflexivity.
Qed.

Lemma flat_map_single_out (k : nat) (x : string) (a n : nat) :
  k < a -> flat_map (fun i => if Nat.eqb k i then [x] else []) (seq a n) = [].
Proof.
  revert a. induction n as [|n IH]; intros a Ha; simpl; [reflexivity|].
  destruct (Nat.eqb_spec k a); [lia|]. apply IH. lia.
Qed.

Lemma flat_map_single_in (k : nat) (x : string) (a n : nat) :
  a <= k < a + n -> flat_map (fun i => if Nat.eqb k i then [x] else []) (seq a n) = [x].
Proof.
  revert a. induction n as [|n IH]; intros a Ha; simpl; [lia|].
  destruct (Nat.eqb_spec k a).
  - subst k. rewrite flat_map_single_out by lia. reflexivity.
  - apply IH. lia.
Qed.

Lemma flat_map_app_perm {A B} (f g : A -> list B) (l : list A) :
  Permutation (flat_map (fun a => f a ++ g a) l) (flat_map f l ++ flat_map g l).
Proof.
  induction l as [|a l IH]; simpl; [reflexivity|].
  rewrite <- !app_assoc. apply Permutation_app_head.
  rewrite IH. apply Permutation_app_swap_app.
Qed.

Lemma assigned_from_perm (N idx : nat) (lines : list string) :
  N <> 0 ->
  Permutation (flat_map (assigned_from N idx lines) (seq 0 N)) (map normalize_line lines).
Proof.
  intros HN. revert idx. induction lines as [|l r IH]; intros idx; simpl.
  - induction (seq 0 N); simpl; auto.
  - rewrite (flat_map_app_perm (fun i => if Nat.eqb (idx mod N) i then [normalize_line l] else [])
                               (assigned_from N (S idx) r)).
    rewrite flat_map_single_in
      by (split; [lia | simpl; now apply Nat.mod_upper_bound]).
    simpl. apply perm_skip, IH.
Qed.

Lemma flat_map_ext_seq {B} (f g : nat -> list B) (a n : nat) :
  (forall i, a <= i < a + n -> f i = g i) -> flat_map f (seq a n) = flat_map g (seq a n).
Proof.
  revert a. induction n as [|n IH]; intros a H; simpl; [reflexivity|].
  rewrite (H a) by lia. f_equal. apply IH. intros i Hi. apply H. lia.
Qed.

(** ** Worker traces *)

Lemma pbind_ok {E A B} (c : proc E A) (k : A -> proc E B) (tr tr' : list E) (a : A) :
  c tr = (Ok a, tr') -> pbind c k tr = k a tr'.
Proof. intros H. unfold pbind. now rewrite H. Qed.

Lemma write_data_run (md : map_data) (tr : list mevent) :
  write_data md tr = (Ok tt, tr ++ write_evs md).
Proof.
  revert tr. induction md as [|[r b] md IH]; intros tr; cbn.
  - now rewrite app_nil_r.
  - unfold pemit. rewrite IH. now rewrite <- !app_assoc.
Qed.

Lemma appends_run (md : map_data) (tr : list mevent) :
  for_each (fun '(r, _) => pemit (MAppend r)) md tr
  = (Ok tt, tr ++ map (fun '(r, _) => MAppend r) md).
Proof.
  revert tr. induction md as [|[r b] md IH]; intros tr; cbn.
  - now rewrite app_nil_r.
  - unfold pemit. rewrite IH. now rewrite <- !app_assoc.
Qed.

Lemma sub_start_mapper_run (hash : string -> Z) (m : Mapper) (tr : list mevent) :
  Sub.start_mapper hash m tr =
  match map_lines hash (num_reducers m) (map_function m) 0 (input_data m) [] with
  | Ok md => (Ok tt, tr ++ [MStatus InProgress] ++ map (fun '(r, _) => MAppend r) md
                      ++ [MSort] ++ write_evs md ++ [MPublish; MStatus Done])
  | Err e => (Err e, tr ++ [MStatus InProgress])
  end.
Proof.
  unfold Sub.start_mapper. cbn [pbind pemit plift].
  destruct (map_lines hash (num_reducers m) (map_function m) 0 (input_data m) []) as [md|e];
    [|reflexivity].
  rewrite (pbind_ok _ _ _ _ _ (appends_run md _)). cbn [pbind pemit].
  rewrite (pbind_ok _ _ _ _ _ (write_data_run md _)). cbn [pbind pemit].
  unfold pemit. now rewrite <- !app_assoc.
Qed.

Lemma writes_before_done_last (xs : list mevent) :
  (forall e, In e xs -> e <> MStatus Done) ->
  writes_before_done (xs ++ [MStatus Done]) = true.
Proof.
  induction xs as [|e xs IH]; intros H; [reflexivity|].
  cbn [app writes_before_done].
  destruct e as [[|]| | | |]; try (apply IH; intros e' He'; apply H; now right).
  exfalso. apply (H (MStatus Done)); [now left | reflexivity].
Qed.

(** In [src/src/python/map.py] the Done status is the last effect. *)
Lemma sub_writes_before_done (hash : string -> Z) (m : Mapper) :
  writes_before_done (trace_of (Sub.start_mapper hash m)) = true.
Proof.
  unfold trace_of. rewrite sub_start_mapper_run.
  destruct (map_lines _ _ _ _ _ _) as [md|e]; [|reflexivity].
  change [MPublish; MStatus Done] with ([MPublish] ++ [MStatus Done]).
  rewrite !app_assoc. cbn [snd].
  apply writes_before_done_last. intros e He.
  repeat rewrite in_app_iff in He.
  destruct He as [[[[[[]|[<-|[]]]|He]|He]|He]|He].
  - discriminate.
  - apply in_map_iff in He as [[r b] [<- _]]. discriminate.
  - destruct He as [<-|[]]. discriminate.
  - unfold write_evs in He. apply in_flat_map in He as [[r b] [_ He]].
    destruct He as [<-|[<-|[]]]; discriminate.
  - destruct He as [<-|[]]. discriminate.
Qed.

(** * The claims *)

(** Claim C7 (shard coverage).  For [N >= 1] mappers, the splitter succeeds;
    shard [i < N], read back line by line, holds exactly the input lines
    whose index is [i] modulo [N], in ascending index order, each ending in
    a newline (added when missing); the file is absent exactly when no line
    is assigned to it; the shards together are a permutation of the
    (newline-terminated) input lines; and every shard line is a
    newline-free body followed by one newline. *)
Theorem split_input_data_shards (N : nat) (text : string) :
  1 <= N ->
  exists fs,
    split_input_data N text = Ok (fs, seq 0 N) /\
    (forall i, i < N ->
       shard_lines fs i = assigned_from N 0 (py_lines text) i /\
       (fs i = None <-> assigned_from N 0 (py_lines text) i = [])) /\
    Permutation (flat_map (shard_lines fs) (seq 0 N)) (map normalize_line (py_lines text)) /\
    (forall i l, In l (shard_lines fs i) ->
       exists body, nl_free body = true /\ l = String.append body nl_str).
Proof.
  intros HN.
  destruct (split_loop_spec N 0 (py_lines text) fs_empty) as [fs [Hrun Hfs]]; [lia|].
  assert (Hsh : forall i, shard_lines fs i = assigned_from N 0 (py_lines text) i).
  { intros i. unfold shard_lines. rewrite Hfs.
    destruct (assigned_from N 0 (py_lines text) i) as [|x xs] eqn:E; [reflexivity|].
    cbn [fs_empty String.append]. rewrite <- E. apply py_lines_concat.
    apply Forall_forall. intros y Hy.
    destruct (assigned_from_in _ _ _ _ _ Hy) as [l [Hl ->]].
    exact (normalize_py_line _ _ Hl). }
  exists fs. unfold split_input_data. rewrite Hrun. split; [reflexivity|].
  split; [|split].
  - intros i _. split; [apply Hsh|]. rewrite Hfs.
    destruct (assigned_from N 0 (py_lines text) i); split; (reflexivity || discriminate).
  - rewrite (flat_map_ext_seq _ (assigned_from N 0 (py_lines text)) 0 N)
      by (intros i _; apply Hsh).
    apply assigned_from_perm. lia.
  - intros i l Hl. rewrite Hsh in Hl.
    destruct (assigned_from_in _ _ _ _ _ Hl) as [l0 [Hl0 ->]].
    exact (normalize_py_line _ _ Hl0).
Qed.

Lemma split_input_data_shards_witness :
  1 <= 2 /\
  exists fs,
    split_input_data 2 corpus_abc = Ok (fs, seq 0 2) /\
    (forall i, i < 2 ->
       shard_lines fs i = assigned_from 2 0 (py_lines corpus_abc) i /\
       (fs i = None <-> assigned_from 2 0 (py_lines corpus_abc) i = [])) /\
    Permutation (flat_map (shard_lines fs) (seq 0 2)) (map normalize_line (py_lines corpus_abc)) /\
    (forall i l, In l (shard_lines fs i) ->
       exists body, nl_free body = true /\ l = String.append body nl_str).
Proof. split; [lia | apply (split_input_data_shards 2 corpus_abc); lia]. Defined.

(** Claim C5 (empty shards), failing input: the corpus [""] with [N = 3].
    The splitter creates no shard file at all, so constructing mapper 0
    ([open(self.input_path, 'r')] in [Mapper.__init__]) raises
    [FileNotFoundError] in the master.  A shard file is only created by the
    first line appended to it.  Given an empty shard, the map worker of
    either tree does complete and writes no intermediate file. *)
Theorem empty_corpus_leaves_shards_missing :
  (exists fs,
     split_input_data 3 EmptyString = Ok (fs, [0; 1; 2]) /\
     fs 0 = None /\ fs 1 = None /\ fs 2 = None /\
     construct_mappers fs [0; 1; 2] = Err FileNotFoundError) /\
  (forall (hash : string -> Z) (id : nat) (f : map_fn) (R : Z),
     trace_of (Top.start_mapper hash
       {| mapper_id := id; input_data := []; map_function := f; num_reducers := R |})
     = [MStatus InProgress; MSort; MPublish; MStatus Done] /\
     trace_of (Sub.start_mapper hash
       {| mapper_id := id; input_data := []; map_function := f; num_reducers := R |})
     = [MStatus InProgress; MSort; MPublish; MStatus Done]).
Proof.
  split.
  - exists fs_empty. repeat split.
  - intros hash id f R. split; reflexivity.
Qed.

(** Claim C3 (top-level reducer).  [src/reduce.py] does not import [time]:
    for every reducer and every prior trace, [start_reducer] raises
    [NameError] on [time] while evaluating the argument of its first [put],
    leaving the trace unchanged: no status message, no output file. *)
Theorem top_start_reducer_name_error (rdr : Reducer) (tr : list revent) :
  TopR.start_reducer rdr tr = (Err (NameError "time"%string), tr).
Proof. reflexivity. Qed.

(** Claim C2 (Done after the intermediate files), failing input: mapper 0
    of [src/map.py] with one reducer and the shard ["a\n"].  It puts the
    Done status before [write_data] writes [m0r0.txt], whatever the string
    hash; the sibling [src/src/python/map.py] puts Done last, for every
    mapper. *)
Theorem top_mapper_done_before_write :
  (forall hash : string -> Z,
     trace_of (Top.start_mapper hash one_line_mapper) =
       [MStatus InProgress; MSort; MPublish; MStatus Done;
        MAppend 0; MWrite 0 [("a"%string, ["1"%string])]] /\
     writes_before_done (trace_of (Top.start_mapper hash one_line_mapper)) = false) /\
  (forall (hash : string -> Z) (m : Mapper),
     writes_before_done (trace_of (Sub.start_mapper hash m)) = true).
Proof.
  split.
  - intros hash. cbv -[Z.modulo]. rewrite Z.mod_1_r. split; reflexivity.
  - exact sub_writes_before_done.
Qed.

(** Claim C4 (active-reducer list), failing input: mapper 0 with one
    reducer and the shard ["a\n"]; its single emission is routed to
    partition 0, so the active-reducer list is [[0]].  [src/map.py]
    publishes [self.reducer_ids] while it is still [[]] (it is filled by
    [write_data], after the [put]), so the master may receive [[]].
    [src/src/python/map.py] fills the list, sorts it, and [write_data]
    appends every partition a second time: it publishes [[0; 0]]. *)
Theorem published_active_list_wrong :
  forall hash : string -> Z,
    emissions emit_line_map 0 [String "a" nl_str] = [("a"%string, "1"%string)] /\
    partition hash 1 "a" = Ok 0%Z /\
    published (trace_of (Top.start_mapper hash one_line_mapper)) = [[]; []; [0%Z]; [0%Z]] /\
    published (trace_of (Sub.start_mapper hash one_line_mapper)) = [[0%Z; 0%Z]; [0%Z; 0%Z]].
Proof.
  intros hash. cbv -[Z.modulo]. rewrite !Z.mod_1_r. repeat split.
Qed.

(** ** The partition function *)

(** Claim C1 (partition stability), counterexample: [hash] is the string
    hash of the worker process, which CPython seeds at random per
    interpreter.  Two mapper processes whose hashes of ["a"] differ modulo
    [R = 2] put the key ["a"] into different buckets, i.e. route it to
    different reducers. *)
Lemma partition_differs_between_processes :
  partition (fun _ => 0%Z) 2 "a" <> partition (fun _ => 1%Z) 2 "a" /\
  emit_intermediate (fun _ => 0%Z) 2 [] "a" "1" = Ok [(0%Z, [("a"%string, ["1"%string])])] /\
  emit_intermediate (fun _ => 1%Z) 2 [] "a" "1" = Ok [(1%Z, [("a"%string, ["1"%string])])].
Proof. split; [discriminate | split; reflexivity]. Qed.

(** Claim C1 (partition stability), as amended: for [R >= 1] the index
    [hash(key) % R] lies in [[0, R)], and two mapper processes compute the
    same index for [key] whenever their string hashes agree on it (as when
    workers share the hash seed of the process that forked them). *)
Theorem partition_in_range_and_agrees (h1 h2 : string -> Z) (R : Z) (key : string) :
  (1 <= R)%Z -> h1 key = h2 key ->
  exists r, partition h1 R key = Ok r /\ partition h2 R key = Ok r /\ (0 <= r < R)%Z.
Proof.
  intros HR Hh. exists (Z.modulo (h1 key) R). unfold partition.
  rewrite (proj2 (Z.eqb_neq R 0)) by lia. rewrite Hh.
  split; [reflexivity | split; [reflexivity | apply Z.mod_pos_bound; lia]].
Qed.

Lemma partition_in_range_and_agrees_witness :
  ((1 <= 2)%Z /\ Z.of_nat (String.length "a") = Z.of_nat (String.length "a")) /\
  exists r,
    partition (fun s => Z.of_nat (String.length s)) 2 "a" = Ok r /\
    partition (fun s => Z.of_nat (String.length s)) 2 "a" = Ok r /\ (0 <= r < 2)%Z.
Proof.
  split; [split; [lia | reflexivity]|].
  apply (partition_in_range_and_agrees (fun s => Z.of_nat (String.length s))
           (fun s => Z.of_nat (String.length s)) 2 "a"); [lia | reflexivity].
Defined.

(** ** [emit_final] *)

Lemma fold_emit_final_get (key : string) (ems : list (string * string))
    (rd : list (string * string)) :
  dget string_dec key (fold_left (fun rd '(k', v) => emit_final rd k' v) ems rd)
  = fold_left (fun acc '(k, v) => if string_dec key k then Some v else acc) ems
      (dget string_dec key rd).
Proof.
  revert rd. induction ems as [|[k v] ems IH]; intros rd; [reflexivity|].
  cbn [fold_left]. rewrite IH. f_equal.
  unfold emit_final, dset. rewrite dget_dupdate. reflexivity.
Qed.

Lemma reduce_loop_get (key : string) (f : reduce_fn) (fd : bucket)
    (rd : list (string * string)) :
  dget string_dec key (reduce_loop f fd rd)
  = fold_left (fun acc '(k, v) => if string_dec key k then Some v else acc)
      (flat_map (fun '(k, vs) => f k vs) fd) (dget string_dec key rd).
Proof.
  revert rd. induction fd as [|[k vs] fd IH]; intros rd; [reflexivity|].
  unfold reduce_loop in *. cbn [fold_left flat_map].
  rewrite IH, fold_left_app, fold_emit_final_get. reflexivity.
Qed.

(** Claim C10 (last write wins).  The reducer of [src/src/python/reduce.py]
    writes [reduced_data] as built by the [emit_final] calls of the user
    reduce over [final_dict]; in it every key holds the value of its last
    [emit_final] call, and a key never emitted is absent.  (The reducer of
    [src/reduce.py] never calls the user reduce, see C3.) *)
Theorem emit_final_last_write_wins (rdr : Reducer) :
  trace_of (SubR.start_reducer rdr) =
    [RStatus InProgress;
     RWrite (reducer_id rdr) (reduce_loop (reduce_function rdr) (final_dict rdr) []);
     RStatus Done] /\
  forall key,
    dget string_dec key (reduce_loop (reduce_function rdr) (final_dict rdr) [])
    = last_emit key (flat_map (fun '(k, vs) => reduce_function rdr k vs) (final_dict rdr)).
Proof.
  split; [reflexivity|]. intros key. rewrite reduce_loop_get. reflexivity.
Qed.

(** ** The reduce-phase supervisor *)

Lemma reducers_pass_events (recv : receiver) (idx : nat) (st : list bool) (e : mon_event) :
  In e (snd (reducers_pass recv idx st)) -> exists i, e = MonJoin i.
Proof.
  revert idx. induction st as [|b st IH]; intros idx He; [contradiction|].
  cbn [reducers_pass] in He.
  destruct (reducers_pass recv (S idx) st) as [st' ev] eqn:E.
  specialize (IH (S idx)). rewrite E in IH. cbn [snd] in IH.
  destruct b; [destruct (recv idx) as [[|]|]|]; cbn [snd] in He;
    try (destruct He as [<-|He]; [now eexists|]); auto.
Qed.

Lemma monitor_reducers_events (fuel p : nat) (recvs : nat -> receiver)
    (st : list bool) (e : mon_event) :
  In e (snd (monitor_reducers fuel p recvs st)) -> exists i, e = MonJoin i.
Proof.
  revert p st. induction fuel as [|fuel IH]; intros p st He; cbn [monitor_reducers] in He;
    destruct (existsb (fun b => b) st); try contradiction.
  destruct (reducers_pass (recvs p) 0 st) as [st' ev] eqn:E.
  destruct (monitor_reducers fuel (S p) recvs st') as [fin ev'] eqn:E'.
  cbn [snd] in He. apply in_app_or in He as [He|He].
  - apply (reducers_pass_events (recvs p) 0 st). now rewrite E.
  - apply (IH (S p) st'). now rewrite E'.
Qed.

Lemma reducers_pass_keeps (recv : receiver) (idx : nat) (st : list bool) (j : nat) :
  nth_error st j = Some true -> recv (idx + j) <> Some Done ->
  nth_error (fst (reducers_pass recv idx st)) j = Some true.
Proof.
  revert idx j. induction st as [|b st IH]; intros idx j Hj Hr; [destruct j; discriminate|].
  cbn [reducers_pass].
  destruct (reducers_pass recv (S idx) st) as [st' ev] eqn:E.
  destruct j as [|j].
  - cbn in Hj. injection Hj as ->. rewrite Nat.add_0_r in Hr.
    destruct (recv idx) as [[|]|]; [reflexivity | congruence | reflexivity].
  - cbn in Hj. specialize (IH (S idx) j Hj). rewrite E in IH.
    replace (S idx + j) with (idx + S j) in IH by lia.
    specialize (IH Hr). cbn [fst] in IH.
    destruct b; [destruct (recv idx) as [[|]|]|]; exact IH.
Qed.

Lemma monitor_reducers_hangs (fuel p : nat) (recvs : nat -> receiver)
    (st : list bool) (idx : nat) :
  nth_error st idx = Some true -> (forall q, recvs q idx <> Some Done) ->
  fst (monitor_reducers fuel p recvs st) = false.
Proof.
  revert p st. induction fuel as [|fuel IH]; intros p st Hst Hr; cbn [monitor_reducers];
    (replace (existsb (fun b => b) st) with true
       by (symmetry; apply existsb_exists; exists true; split;
           [exact (nth_error_In _ _ Hst) | reflexivity])); [reflexivity|].
  destruct (reducers_pass (recvs p) 0 st) as [st' ev] eqn:E.
  destruct (monitor_reducers fuel (S p) recvs st') as [fin ev'] eqn:E'.
  cbn [fst]. replace fin with (fst (monitor_reducers fuel (S p) recvs st')) by now rewrite E'.
  apply IH; [|exact Hr].
  replace st' with (fst (reducers_pass (recvs p) 0 st)) by now rewrite E.
  apply reducers_pass_keeps; [exact Hst | exact (Hr p)].
Qed.

(** Claim C9 (no reducer restart), counterexample: a reducer whose status
    receive times out once.  [monitor_reducers] swallows the exception with
    [pass]: the pass leaves no event at all, in particular no log line
    (unlike [monitor_mappers], whose [retry_mapper] prints before
    restarting), and the loop goes on. *)
Lemma reducer_timeout_not_logged :
  monitor_reducers 1 0 never_answers [true] = (false, []) /\
  mappers_pass (never_answers 0) 0 [true] = ([true], [MonLog 0; MonTerminate 0; MonSpawn 0]).
Proof. split; reflexivity. Qed.

(** Claim C9 (no reducer restart), as amended: whatever the reducers
    report, [monitor_reducers] only ever joins finished reducers: on a
    timeout it neither logs, terminates nor respawns; and a reducer that
    never reports Done keeps the loop running for any number of passes. *)
Theorem monitor_reducers_never_restarts (fuel p : nat) (recvs : nat -> receiver)
    (st : list bool) :
  (forall e, In e (snd (monitor_reducers fuel p recvs st)) -> exists idx, e = MonJoin idx) /\
  (forall idx, nth_error st idx = Some true -> (forall q, recvs q idx <> Some Done) ->
     fst (monitor_reducers fuel p recvs st) = false).
Proof.
  split.
  - apply monitor_reducers_events.
  - intros idx. apply monitor_reducers_hangs.
Qed.

Lemma monitor_reducers_never_restarts_witness :
  nth_error [true] 0 = Some true /\
  (forall q, never_answers q 0 <> Some Done) /\
  fst (monitor_reducers 5 0 never_answers [true]) = false.
Proof.
  split; [reflexivity|]. split; [intros q; discriminate|].
  apply (proj2 (monitor_reducers_never_restarts 5 0 never_answers [true]) 0);
    [reflexivity | intros q; discriminate].
Defined.

(** ** Loading the intermediate files *)

Lemma dget_not_in (key : string) (b : bucket) :
  ~ In key (map fst b) -> dget string_dec key b = None.
Proof.
  induction b as [|[k vs] b IH]; intros H; [reflexivity|].
  cbn [dget]. destruct (string_dec key k) as [->|_].
  - exfalso. apply H. now left.
  - apply IH. intros Hin. apply H. now right.
Qed.

Lemma extend_bucket_values (acc data : bucket) (key : string) :
  NoDup (map fst data) ->
  values_in (extend_bucket acc data) key = values_in acc key ++ values_in data key.
Proof.
  revert acc. induction data as [|[k vs] data IH]; intros acc Hnd.
  - unfold values_in at 3. simpl. now rewrite app_nil_r.
  - cbn [map] in Hnd. apply NoDup_cons_iff in Hnd as [Hk Hnd].
    unfold extend_bucket. cbn [fold_left]. fold (extend_bucket (dupdate string_dec k (fun l => l ++ vs) [] acc) data).
    rewrite (IH _ Hnd). unfold values_in. rewrite dget_dupdate. cbn [dget].
    destruct (string_dec key k) as [->|Hne].
    + rewrite (dget_not_in k data Hk), app_nil_r.
      destruct (dget string_dec k acc); reflexivity.
    + reflexivity.
Qed.

Lemma load_loop_values (ifs : inter_fs) (r : Z) (ms : list nat) (acc d : bucket) (key : string) :
  (forall m b, ifs m r = Some (Complete b) -> NoDup (map fst b)) ->
  load_loop ifs r ms acc = Ok d ->
  values_in d key = values_in acc key ++ flat_map (fun m => file_values (ifs m r) key) ms.
Proof.
  intros Hnd. revert acc. induction ms as [|m ms IH]; intros acc Hrun; cbn [load_loop] in Hrun.
  - injection Hrun as <-. now rewrite app_nil_r.
  - cbn [flat_map]. destruct (ifs m r) as [[b|]|] eqn:E.
    + rewrite (IH _ Hrun), extend_bucket_values by (exact (Hnd m b E)).
      unfold file_values. now rewrite app_assoc.
    + discriminate.
    + rewrite (IH _ Hrun). reflexivity.
Qed.

(** ** The map-side buffer *)

Lemma emit_intermediate_vals (hash : string -> Z) (R : Z) (md md' : map_data)
    (k0 v : string) (r : Z) (key : string) :
  emit_intermediate hash R md k0 v = Ok md' ->
  bucket_vals md' r key =
    bucket_vals md r key
    ++ (if String.eqb k0 key && Z.eqb (Z.modulo (hash k0) R) r then [v] else []).
Proof.
  unfold emit_intermediate, partition. destruct (Z.eqb R 0); [discriminate|].
  cbn [rbind]. intros H. injection H as <-.
  unfold bucket_vals. rewrite dget_dupdate.
  destruct (Z.eq_dec r (Z.modulo (hash k0) R)) as [->|Hr].
  - rewrite Z.eqb_refl, andb_true_r.
    unfold values_in. rewrite dget_dupdate.
    destruct (string_dec key k0) as [->|Hk].
    + rewrite String.eqb_refl. destruct (dget Z.eq_dec _ md) as [b|]; [|reflexivity].
      destruct (dget string_dec k0 b); reflexivity.
    + replace (String.eqb k0 key) with false
        by (symmetry; apply String.eqb_neq; congruence).
      rewrite app_nil_r. destruct (dget Z.eq_dec _ md) as [b|]; reflexivity.
  - replace (Z.eqb (Z.modulo (hash k0) R) r) with false
      by (symmetry; apply Z.eqb_neq; congruence).
    rewrite andb_false_r, app_nil_r. reflexivity.
Qed.

Lemma emit_all_vals (hash : string -> Z) (R : Z) (md md' : map_data)
    (ems : list (string * string)) (r : Z) (key : string) :
  emit_all hash R md ems = Ok md' ->
  bucket_vals md' r key =
    bucket_vals md r key
    ++ map snd (filter (fun e => String.eqb (fst e) key
                                 && Z.eqb (Z.modulo (hash (fst e)) R) r) ems).
Proof.
  revert md. induction ems as [|[k v] ems IH]; intros md Hrun; cbn [emit_all] in Hrun.
  - injection Hrun as <-. now rewrite app_nil_r.
  - destruct (emit_intermediate hash R md k v) as [md1|e] eqn:E; [|discriminate].
    cbn [rbind] in Hrun. rewrite (IH _ Hrun), (emit_intermediate_vals _ _ _ _ _ _ _ _ E).
    cbn [filter fst]. rewrite <- app_assoc.
    destruct (String.eqb k key && Z.eqb (Z.modulo (hash k) R) r); reflexivity.
Qed.

Lemma map_lines_vals (hash : string -> Z) (R : Z) (f : map_fn) (idx : nat)
    (lines : list string) (md md' : map_data) (r : Z) (key : string) :
  map_lines hash R f idx lines md = Ok md' ->
  bucket_vals md' r key =
    bucket_vals md r key
    ++ map snd (filter (fun e => String.eqb (fst e) key
                                 && Z.eqb (Z.modulo (hash (fst e)) R) r)
                 (emissions f idx lines)).
Proof.
  revert idx md. induction lines as [|line rest IH]; intros idx md Hrun;
    cbn [map_lines] in Hrun.
  - injection Hrun as <-. now rewrite app_nil_r.
  - destruct (emit_all hash R md (f idx (rstrip_nl line))) as [md1|e] eqn:E; [|discriminate].
    cbn [rbind] in Hrun. rewrite (IH _ _ Hrun), (emit_all_vals _ _ _ _ _ _ _ E).
    cbn [emissions]. rewrite filter_app, map_app, app_assoc. reflexivity.
Qed.

(** Claim C8 (reducer merge order).  For every key of the merged mapping
    of reducer [r], its value list is the concatenation, over the mappers
    [0 .. N-1] in ascending order, of the key's value list in the existing
    file [m{m}r{r}.txt] (a JSON object, so each key occurs once); and the
    value list of a key in [map_data[r]], which [write_data] dumps into
    [m{id}r{r}.txt], lists the values of the mapper's emissions of that key
    routed to [r], in emission order. *)
Theorem reducer_merge_order :
  (forall (ifs : inter_fs) (num_mappers : nat) (r : Z) (d : bucket),
     (forall m b, ifs m r = Some (Complete b) -> NoDup (map fst b)) ->
     load_intermediate_data ifs num_mappers r = Ok d ->
     forall key vs, dget string_dec key d = Some vs ->
       vs = flat_map (fun m => file_values (ifs m r) key) (seq 0 num_mappers)) /\
  (forall (hash : string -> Z) (m : Mapper) (md : map_data),
     map_lines hash (num_reducers m) (map_function m) 0 (input_data m) [] = Ok md ->
     forall r key,
       bucket_vals md r key =
       map snd (filter (fun e => String.eqb (fst e) key
                                 && Z.eqb (Z.modulo (hash (fst e)) (num_reducers m)) r)
                 (emissions (map_function m) 0 (input_data m)))).
Proof.
  split.
  - intros ifs N r d Hnd Hload key vs Hvs.
    pose proof (load_loop_values ifs r (seq 0 N) [] d key Hnd Hload) as H.
    unfold values_in at 1 in H. rewrite Hvs in H. exact H.
  - intros hash m md Hrun r key. exact (map_lines_vals _ _ _ _ _ [] md r key Hrun).
Qed.

Lemma reducer_merge_order_witness :
  ((forall m b, two_mapper_files m 0%Z = Some (Complete b) -> NoDup (map fst b)) /\
   load_intermediate_data two_mapper_files 2 0%Z = Ok [("a"%string, ["1"; "2"; "3"]%string)] /\
   dget string_dec "a"%string [("a"%string, ["1"; "2"; "3"]%string)] = Some ["1"; "2"; "3"]%string /\
   ["1"; "2"; "3"]%string = flat_map (fun m => file_values (two_mapper_files m 0%Z) "a"%string) (seq 0 2)) /\
  (map_lines (fun _ => 0%Z) 1 emit_line_map 0 [String "a" nl_str] []
     = Ok [(0%Z, [("a"%string, ["1"%string])])] /\
   bucket_vals [(0%Z, [("a"%string, ["1"%string])])] 0%Z "a"%string =
   map snd (filter (fun e => String.eqb (fst e) "a"%string
                             && Z.eqb (Z.modulo ((fun _ => 0%Z) (fst e)) 1) 0%Z)
              (emissions emit_line_map 0 [String "a" nl_str]))).
Proof.
  assert (Hnd : forall m b, two_mapper_files m 0%Z = Some (Complete b) -> NoDup (map fst b)).
  { intros m b H. destruct m as [|[|m]]; cbn in H; try discriminate;
      injection H as <-; cbn; apply NoDup_cons; solve [intros [] | apply NoDup_nil]. }
  split; [split; [exact Hnd | split; [reflexivity | split; [reflexivity|]]] | split; [reflexivity|]].
  - apply (proj1 reducer_merge_order two_mapper_files 2 0%Z
             [("a"%string, ["1"; "2"; "3"]%string)] Hnd); reflexivity.
  - apply (proj2 reducer_merge_order (fun _ => 0%Z) one_line_mapper); reflexivity.
Defined.

(** ** Restarting a mapper *)

Lemma run_writes_at (m : nat) (ifs : inter_fs) (evs : list mevent) (m' : nat) (r' : Z) :
  run_writes m ifs evs m' r' =
    if Nat.eqb m' m
    then match last_write r' evs with Some b => Some (Complete b) | None => ifs m' r' end
    else ifs m' r'.
Proof.
  revert ifs. induction evs as [|e evs IH]; intros ifs.
  - cbn. destruct (Nat.eqb m' m); reflexivity.
  - unfold run_writes. cbn [fold_left]. fold (run_writes m (apply_write m ifs e) evs).
    rewrite IH. cbn [last_write].
    destruct (Nat.eqb m' m) eqn:Em.
    + destruct (last_write r' evs); [reflexivity|].
      destruct e as [s|ra| | |r0 b]; cbn [apply_write]; try reflexivity.
      rewrite Em. cbn [andb]. destruct (Z.eqb r' r0); reflexivity.
    + destruct e as [s|ra| | |r0 b]; cbn [apply_write]; try reflexivity.
      rewrite Em. reflexivity.
Qed.

Lemma killed_writes_at (m : nat) (ifs : inter_fs) (evs : list mevent) (j : nat) (cut : bool)
    (m' : nat) (r' : Z) :
  killed_writes m ifs evs j cut m' r' = ifs m' r' \/
  (m' = m /\ last_write r' evs <> None).
Proof.
  assert (Hw : forall r b, nth_error evs j = Some (MWrite r b) ->
                 last_write r evs <> None).
  { clear. intros r b Hn. apply nth_error_In in Hn. revert Hn.
    induction evs as [|e evs IH]; intros Hin; [destruct Hin|].
    cbn [last_write]. destruct Hin as [->|Hin].
    - destruct (last_write r evs); [discriminate|]. rewrite Z.eqb_refl. discriminate.
    - specialize (IH Hin). destruct (last_write r evs); [discriminate|contradiction]. }
  assert (Hf : forall k, run_writes m ifs (firstn k evs) m' r' = ifs m' r' \/
                         (m' = m /\ last_write r' evs <> None)).
  { intros k. rewrite run_writes_at. destruct (Nat.eqb m' m) eqn:Em; [|now left].
    apply Nat.eqb_eq in Em.
    destruct (last_write r' (firstn k evs)) as [b|] eqn:Hl; [|now left].
    right. split; [exact Em|].
    revert k b Hl. clear. induction evs as [|e evs IH]; intros k b Hl.
    - now rewrite firstn_nil in Hl.
    - destruct k as [|k]; [discriminate|]. cbn [firstn last_write] in Hl |- *.
      destruct (last_write r' (firstn k evs)) as [b'|] eqn:Hk.
      + specialize (IH k b' Hk). destruct (last_write r' evs); [discriminate|contradiction].
      + destruct (last_write r' evs); [discriminate|]. rewrite Hl. discriminate. }
  unfold killed_writes.
  destruct cut; [|apply Hf].
  destruct (nth_error evs j) as [[s|ra| | |r0 b]|] eqn:Hn; try apply Hf.
  destruct (Nat.eqb m' m && Z.eqb r' r0) eqn:E; [|apply Hf].
  apply andb_true_iff in E as [Em Er]. apply Nat.eqb_eq in Em. apply Z.eqb_eq in Er.
  subst. right. split; [reflexivity|]. exact (Hw _ _ eq_refl).
Qed.

Lemma fold_mappers_agree (tr : Mapper -> list mevent) (mappers : list Mapper)
    (ifs ifs' : inter_fs) :
  (forall m r, ifs m r = ifs' m r \/
               exists mp, In mp mappers /\ mapper_id mp = m /\ last_write r (tr mp) <> None) ->
  forall m r,
    fold_left (fun ifs mp => run_writes (mapper_id mp) ifs (tr mp)) mappers ifs m r =
    fold_left (fun ifs mp => run_writes (mapper_id mp) ifs (tr mp)) mappers ifs' m r.
Proof.
  revert ifs ifs'. induction mappers as [|mp mps IH]; intros ifs ifs' H m r.
  - destruct (H m r) as [E | [mp [[] _]]]. exact E.
  - cbn [fold_left]. apply IH. clear m r. intros m r.
    rewrite !run_writes_at.
    destruct (Nat.eqb m (mapper_id mp)) eqn:Em.
    + destruct (last_write r (tr mp)) as [b|] eqn:Hl; [now left|].
      destruct (H m r) as [E | [mp' [[<- | Hin] [Hid Hw]]]]; [now left | |].
      * contradiction.
      * right. now exists mp'.
    + destruct (H m r) as [E | [mp' [[<- | Hin] [Hid Hw]]]]; [now left | |].
      * subst m. now rewrite Nat.eqb_refl in Em.
      * right. now exists mp'.
Qed.

Lemma load_loop_agree (ifs ifs' : inter_fs) (r : Z) (ms : list nat) (acc : bucket) :
  (forall m r, ifs m r = ifs' m r) -> load_loop ifs r ms acc = load_loop ifs' r ms acc.
Proof.
  intros H. revert acc. induction ms as [|m ms IH]; intros acc; cbn [load_loop];
    [reflexivity|]. rewrite H. destruct (ifs' m r) as [[b|]|]; auto.
Qed.

Lemma reduce_phase_agree (ifs ifs' : inter_fs) (num_mappers R : nat) (f : reduce_fn) :
  (forall m r, ifs m r = ifs' m r) ->
  reduce_phase ifs num_mappers R f = reduce_phase ifs' num_mappers R f.
Proof.
  intros H. unfold reduce_phase, load_intermediate_data.
  induction (seq 0 R) as [|r rs IH]; cbn [fold_right]; [reflexivity|].
  rewrite IH, (load_loop_agree ifs ifs' _ _ _ H). reflexivity.
Qed.

(** Claim C6 (restart idempotence), counterexample.  Two runs of the job
    are two Python interpreters, each with its own salt for the built-in
    [hash] of strings: the same one-line corpus ["a"] with two reducers
    and the same deterministic map and reduce functions sends key ["a"] to
    the output of reducer 0 in a run whose hash gives 0 and to reducer 1 in
    a run whose hash gives 1, so the output files of a run with a kill
    differ from those of a run without it beyond key order. *)
Lemma restart_outputs_differ_across_hash_seeds :
  run_job (fun _ => 0%Z) [one_line_mapper2] 2 concat_reduce (Some (0, 0, false))
    = Ok [[("a"%string, "1"%string)]; []] /\
  run_job (fun _ => 1%Z) [one_line_mapper2] 2 concat_reduce None
    = Ok [[]; [("a"%string, "1"%string)]] /\
  ~ Permutation [("a"%string, "1"%string)] [].
Proof.
  split; [reflexivity | split; [reflexivity|]].
  intros Hp. apply Permutation_length in Hp. discriminate.
Qed.

(** Claim C6 (restart idempotence), as the code has it.  Within one run
    (one string [hash] shared by the master and every worker it forks),
    whatever prefix [j] of its effects the killed mapper [kill_idx] had
    performed, and whether or not it was cut in the middle of a file write,
    the intermediate directory at the map barrier and the outputs of all
    reducers are the same as in the run with no kill: the restarted mapper
    rewrites every file its first attempt could have touched. *)
Theorem restart_outputs_match (hash : string -> Z) (mappers : list Mapper) (R : nat)
    (f : reduce_fn) (kill_idx j : nat) (cut : bool) :
  (forall m r, map_phase hash mappers (Some (kill_idx, j, cut)) m r =
               map_phase hash mappers None m r) /\
  run_job hash mappers R f (Some (kill_idx, j, cut)) = run_job hash mappers R f None.
Proof.
  assert (Hmap : forall m r, map_phase hash mappers (Some (kill_idx, j, cut)) m r =
                             map_phase hash mappers None m r).
  { unfold map_phase. apply fold_mappers_agree. intros m r.
    destruct (nth_error mappers kill_idx) as [mp|] eqn:Hk; [|now left].
    destruct (killed_writes_at (mapper_id mp) inter_empty
                (trace_of (Sub.start_mapper hash mp)) j cut m r) as [E | [Hm Hw]].
    - now left.
    - right. exists mp. split; [exact (nth_error_In _ _ Hk)|]. now split. }
  split; [exact Hmap|].
  unfold run_job. apply reduce_phase_agree. exact Hmap.
Qed.

(** * Further properties of the code *)

(** ** Dicts *)

Section DictMore.
Context {K V : Type} (K_eq_dec : forall x y : K, {x = y} + {x <> y}).

Lemma dupdate_in (k k' : K) (f : V -> V) (dflt v : V) (d : list (K * V)) :
  In (k', v) (dupdate K_eq_dec k f dflt d) ->
  In (k', v) d \/ (k' = k /\ (v = f dflt \/ exists v0, In (k, v0) d /\ v = f v0)).
Proof.
  induction d as [|[k0 v0] d IH]; cbn [dupdate]; intros H.
  - destruct H as [H|[]]. injection H as H1 H2. subst. right. auto.
  - destruct (K_eq_dec k k0) as [<-|Hne].
    + destruct H as [H|H].
      * injection H as H1 H2. subst. right. split; [reflexivity|].
        right. exists v0. split; [now left|reflexivity].
      * left. now right.
    + destruct H as [H|H].
      * left. now left.
      * destruct (IH H) as [H'|[-> [Hv|[v1 [Hin Hv]]]]].
        -- left. now right.
        -- right. auto.
        -- right. split; [reflexivity|]. right. exists v1. split; [now right|exact Hv].
Qed.

Lemma dupdate_keys_in (k : K) (f : V -> V) (dflt : V) (d : list (K * V)) :
  In k (map fst d) -> map fst (dupdate K_eq_dec k f dflt d) = map fst d.
Proof.
  induction d as [|[k0 v0] d IH]; intros H; [destruct H|].
  cbn [dupdate]. destruct (K_eq_dec k k0) as [<-|Hne]; [reflexivity|].
  cbn [map fst] in *. destruct H as [H|H]; [congruence|]. now rewrite IH.
Qed.

Lemma dupdate_keys_notin (k : K) (f : V -> V) (dflt : V) (d : list (K * V)) :
  ~ In k (map fst d) -> map fst (dupdate K_eq_dec k f dflt d) = map fst d ++ [k].
Proof.
  induction d as [|[k0 v0] d IH]; intros H; [reflexivity|].
  cbn [dupdate]. destruct (K_eq_dec k k0) as [<-|Hne].
  - exfalso. apply H. now left.
  - cbn [map fst app]. rewrite IH; [reflexivity|]. intros Hin. apply H. now right.
Qed.

Lemma dupdate_nodup (k : K) (f : V -> V) (dflt : V) (d : list (K * V)) :
  NoDup (map fst d) -> NoDup (map fst (dupdate K_eq_dec k f dflt d)).
Proof.
  intros Hnd. destruct (in_dec K_eq_dec k (map fst d)) as [Hin|Hout].
  - now rewrite dupdate_keys_in.
  - rewrite dupdate_keys_notin by exact Hout.
    apply (Permutation_NoDup (Permutation_cons_append (map fst d) k)).
    now constructor.
Qed.

Lemma dget_in (k : K) (v : V) (d : list (K * V)) :
  dget K_eq_dec k d = Some v -> In (k, v) d.
Proof.
  induction d as [|[k0 v0] d IH]; cbn [dget]; [discriminate|].
  destruct (K_eq_dec k k0) as [<-|_].
  - intros H. injection H as ->. now left.
  - intros H. right. now apply IH.
Qed.

Lemma in_dget (k : K) (v : V) (d : list (K * V)) :
  NoDup (map fst d) -> In (k, v) d -> dget K_eq_dec k d = Some v.
Proof.
  induction d as [|[k0 v0] d IH]; intros Hnd Hin; [destruct Hin|].
  cbn [map fst] in Hnd. apply NoDup_cons_iff in Hnd as [Hk0 Hnd].
  cbn [dget]. destruct Hin as [H|H].
  - injection H as -> ->. destruct (K_eq_dec k k); [reflexivity|congruence].
  - destruct (K_eq_dec k k0) as [->|_].
    + exfalso. apply Hk0. apply (in_map fst _ _ H).
    + now apply IH.
Qed.

Lemma dget_none (k : K) (d : list (K * V)) :
  dget K_eq_dec k d = None -> ~ In k (map fst d).
Proof.
  induction d as [|[k0 v0] d IH]; cbn [dget map fst]; intros H Hin; [destruct Hin|].
  destruct (K_eq_dec k k0) as [->|Hne]; [discriminate|].
  destruct Hin as [->|Hin]; [congruence|]. exact (IH H Hin).
Qed.

End DictMore.

(** ** The map side *)

Lemma append_not_nil {A} (l : list A) (x : A) : l ++ [x] <> [].
Proof. destruct l; discriminate. Qed.

Lemma emit_intermediate_ok (hash : string -> Z) (R : Z) (md : map_data) (key value : string) :
  (0 < R)%Z -> map_data_ok hash R md ->
  exists md', emit_intermediate hash R md key value = Ok md' /\ map_data_ok hash R md'.
Proof.
  intros HR [Hnd Hent]. unfold emit_intermediate, partition.
  replace (Z.eqb R 0) with false by (symmetry; apply Z.eqb_neq; lia). cbn [rbind].
  eexists. split; [reflexivity|]. split; [now apply dupdate_nodup|].
  set (r0 := Z.modulo (hash key) R).
  assert (Hb : forall b0, NoDup (map fst b0) ->
                 (forall k vs, In (k, vs) b0 -> vs <> [] /\ Z.modulo (hash k) R = r0) ->
                 NoDup (map fst (dupdate string_dec key (fun l => l ++ [value]) [] b0)) /\
                 forall k vs, In (k, vs) (dupdate string_dec key (fun l => l ++ [value]) [] b0) ->
                   vs <> [] /\ Z.modulo (hash k) R = r0).
  { intros b0 Hnd0 Hent0. split; [now apply dupdate_nodup|].
    intros k vs Hin. apply dupdate_in in Hin as [Hin|[-> [->|[v0 [_ ->]]]]].
    - exact (Hent0 _ _ Hin).
    - split; [apply append_not_nil | reflexivity].
    - split; [apply append_not_nil | reflexivity]. }
  intros r b Hin. apply dupdate_in in Hin as [Hin|[-> [->|[b0 [Hin0 ->]]]]].
  - exact (Hent _ _ Hin).
  - split; [apply Z.mod_pos_bound; exact HR|].
    apply Hb; [constructor | intros k vs []].
  - destruct (Hent _ _ Hin0) as [Hr [Hnd0 Hent0]]. split; [exact Hr|].
    apply Hb; [exact Hnd0 | exact Hent0].
Qed.

Lemma emit_all_ok (hash : string -> Z) (R : Z) (md : map_data) (ems : list (string * string)) :
  (0 < R)%Z -> map_data_ok hash R md ->
  exists md', emit_all hash R md ems = Ok md' /\ map_data_ok hash R md'.
Proof.
  intros HR. revert md. induction ems as [|[k v] ems IH]; intros md Hok; cbn [emit_all].
  - now exists md.
  - destruct (emit_intermediate_ok hash R md k v HR Hok) as [md1 [E Hok1]].
    rewrite E. cbn [rbind]. now apply IH.
Qed.

Lemma map_lines_ok (hash : string -> Z) (R : Z) (f : map_fn) (idx : nat)
    (lines : list string) (md : map_data) :
  (0 < R)%Z -> map_data_ok hash R md ->
  exists md', map_lines hash R f idx lines md = Ok md' /\ map_data_ok hash R md'.
Proof.
  intros HR. revert idx md. induction lines as [|line rest IH]; intros idx md Hok;
    cbn [map_lines].
  - now exists md.
  - destruct (emit_all_ok hash R md (f idx (rstrip_nl line)) HR Hok) as [md1 [E Hok1]].
    rewrite E. cbn [rbind]. now apply IH.
Qed.

Lemma map_data_ok_nil (hash : string -> Z) (R : Z) : map_data_ok hash R [].
Proof. split; [constructor | intros r b []]. Qed.

Lemma top_start_mapper_run (hash : string -> Z) (m : Mapper) (tr : list mevent) :
  Top.start_mapper hash m tr =
  match map_lines hash (num_reducers m) (map_function m) 0 (input_data m) [] with
  | Ok md => (Ok tt, tr ++ [MStatus InProgress; MSort; MPublish; MStatus Done]
                      ++ write_evs md)
  | Err e => (Err e, tr ++ [MStatus InProgress])
  end.
Proof.
  unfold Top.start_mapper. cbn [pbind pemit plift].
  destruct (map_lines hash (num_reducers m) (map_function m) 0 (input_data m) []) as [md|e];
    [|reflexivity].
  cbn [pbind pemit]. rewrite write_data_run. now rewrite <- !app_assoc.
Qed.

Lemma written_ids_app (a b : list mevent) :
  written_ids (a ++ b) = written_ids a ++ written_ids b.
Proof. unfold written_ids. apply flat_map_app. Qed.

Lemma written_ids_write_evs (md : map_data) : written_ids (write_evs md) = map fst md.
Proof.
  induction md as [|[r b] md IH]; [reflexivity|].
  change (write_evs ((r, b) :: md)) with ([MAppend r; MWrite r b] ++ write_evs md).
  rewrite written_ids_app, IH. reflexivity.
Qed.

Lemma in_write_evs (md : map_data) (r : Z) (b : bucket) :
  In (MWrite r b) (write_evs md) -> In (r, b) md.
Proof.
  induction md as [|[r0 b0] md IH]; cbn; intros H; [destruct H|].
  destruct H as [H|[H|H]]; [discriminate| |right; now apply IH].
  injection H as -> ->. now left.
Qed.

Lemma written_ids_appends (md : map_data) :
  written_ids (map (fun '(r, _) => MAppend r) md) = [].
Proof. induction md as [|[r b] md IH]; [reflexivity|]. exact IH. Qed.

Lemma in_appends (md : map_data) (e : mevent) :
  In e (map (fun '(r, _) => MAppend r) md) -> exists r, e = MAppend r.
Proof.
  intros H. apply in_map_iff in H as [[r b] [<- _]]. now exists r.
Qed.

(** Property (intermediate files).  Each of the two [Mapper.start_mapper]s
    ([src/map.py], and [src/src/python/map.py] on its Python path), run with
    [num_reducers >= 1], completes; it writes each file [m{id}r{r}.txt] at
    most once, and only for [0 <= r < num_reducers]; the JSON object it
    writes there holds each key once, each with a non-empty value list, and
    only keys [k] with [hash(k) % num_reducers = r]. *)
Theorem mapper_files_well_formed (hash : string -> Z) (m : Mapper) :
  (0 < num_reducers m)%Z ->
  fst (Top.start_mapper hash m []) = Ok tt /\
  fst (Sub.start_mapper hash m []) = Ok tt /\
  forall evs, evs = trace_of (Top.start_mapper hash m) \/
              evs = trace_of (Sub.start_mapper hash m) ->
  NoDup (written_ids evs) /\
  forall r b, In (MWrite r b) evs ->
    (0 <= r < num_reducers m)%Z /\ NoDup (map fst b) /\
    forall k vs, In (k, vs) b -> vs <> [] /\ Z.modulo (hash k) (num_reducers m) = r.
Proof.
  intros HR.
  destruct (map_lines_ok hash (num_reducers m) (map_function m) 0 (input_data m) []
              HR (map_data_ok_nil hash _)) as [md [E [Hnd Hent]]].
  unfold trace_of. rewrite top_start_mapper_run, sub_start_mapper_run, E. cbn [fst snd].
  split; [reflexivity | split; [reflexivity|]].
  intros evs Hevs.
  assert (Hw : written_ids evs = map fst md /\
               forall r b, In (MWrite r b) evs -> In (MWrite r b) (write_evs md)).
  { destruct Hevs as [->| ->]; rewrite !written_ids_app, ?written_ids_appends,
      written_ids_write_evs; (split; [simpl; rewrite ?app_nil_r; reflexivity|]);
      intros r b Hin.
    - cbn [app] in Hin. destruct Hin as [H|[H|[H|[H|Hin]]]]; try discriminate. exact Hin.
    - cbn [app] in Hin. destruct Hin as [H|Hin]; [discriminate|].
      rewrite in_app_iff in Hin. destruct Hin as [Hin|[H|Hin]];
        [destruct (in_appends _ _ Hin); discriminate | discriminate |].
      rewrite in_app_iff in Hin. destruct Hin as [Hin|[H|[H|[]]]];
        [exact Hin | discriminate | discriminate]. }
  destruct Hw as [-> Hw]. split; [exact Hnd|].
  intros r b Hin. apply Hent. apply in_write_evs. now apply Hw.
Qed.

Lemma mapper_files_well_formed_witness :
  (0 < num_reducers one_line_mapper)%Z /\
  NoDup (written_ids (trace_of (Sub.start_mapper (fun _ => 0%Z) one_line_mapper))).
Proof.
  split; [reflexivity|].
  apply (proj2 (proj2 (mapper_files_well_formed (fun _ => 0%Z) one_line_mapper eq_refl))).
  now right.
Defined.

(** Property (zero reducers).  With [num_reducers = 0] the map loop raises
    [ZeroDivisionError] at the first [emit_intermediate] call, and succeeds
    with an empty [map_data] only if the user map never emits; a worker
    whose map does emit dies after putting its In-progress status, before
    any Done status, file write or [active_reducers_queue.put]. *)
Theorem zero_reducers_mapper_fails (hash : string -> Z) (m : Mapper) :
  num_reducers m = 0%Z ->
  map_lines hash (num_reducers m) (map_function m) 0 (input_data m) [] =
    match emissions (map_function m) 0 (input_data m) with
    | [] => Ok []
    | _ :: _ => Err ZeroDivisionError
    end /\
  (emissions (map_function m) 0 (input_data m) <> [] ->
   Top.start_mapper hash m [] = (Err ZeroDivisionError, [MStatus InProgress]) /\
   Sub.start_mapper hash m [] = (Err ZeroDivisionError, [MStatus InProgress])).
Proof.
  intros HR.
  assert (H : forall idx lines md,
             map_lines hash 0 (map_function m) idx lines md =
             match emissions (map_function m) idx lines with
             | [] => Ok md
             | _ :: _ => Err ZeroDivisionError
             end).
  { intros idx lines. revert idx. induction lines as [|line rest IH]; intros idx md;
      [reflexivity|].
    cbn [map_lines emissions].
    destruct (map_function m idx (rstrip_nl line)) as [|[k v] ems]; cbn [emit_all rbind app].
    - apply IH.
    - reflexivity. }
  rewrite HR, H. split; [reflexivity|].
  intros Hne. rewrite top_start_mapper_run, sub_start_mapper_run, HR, H.
  destruct (emissions (map_function m) 0 (input_data m)); [congruence|].
  split; reflexivity.
Qed.

Lemma zero_reducers_mapper_fails_witness :
  num_reducers one_line_mapper0 = 0%Z /\
  emissions (map_function one_line_mapper0) 0 (input_data one_line_mapper0) <> [] /\
  Sub.start_mapper (fun _ => 0%Z) one_line_mapper0 [] =
    (Err ZeroDivisionError, [MStatus InProgress]).
Proof.
  assert (Hne : emissions (map_function one_line_mapper0) 0 (input_data one_line_mapper0) <> [])
    by (simpl; discriminate).
  split; [reflexivity | split; [exact Hne|]].
  exact (proj2 (proj2 (zero_reducers_mapper_fails (fun _ => 0%Z) one_line_mapper0 eq_refl) Hne)).
Defined.

(** ** The reduce side *)

Lemma load_loop_err (ifs : inter_fs) (r : Z) (ms : list nat) (acc : bucket) (e : exc) :
  load_loop ifs r ms acc = Err e ->
  e = JSONDecodeError /\ exists m, In m ms /\ ifs m r = Some Truncated.
Proof.
  revert acc. induction ms as [|m ms IH]; intros acc H; cbn [load_loop] in H; [discriminate|].
  destruct (ifs m r) as [[b|]|] eqn:E.
  - destruct (IH _ H) as [-> [m' [Hin Hm']]]. split; [reflexivity|]. exists m'. now split; [right|].
  - injection H as <-. split; [reflexivity|]. exists m. now split; [left|].
  - destruct (IH _ H) as [-> [m' [Hin Hm']]]. split; [reflexivity|]. exists m'. now split; [right|].
Qed.

Lemma load_loop_truncated (ifs : inter_fs) (r : Z) (ms : list nat) (acc : bucket) (m : nat) :
  In m ms -> ifs m r = Some Truncated -> load_loop ifs r ms acc = Err JSONDecodeError.
Proof.
  revert acc. induction ms as [|m0 ms IH]; intros acc Hin Hm; [destruct Hin|].
  cbn [load_loop]. destruct Hin as [<-|Hin].
  - now rewrite Hm.
  - destruct (ifs m0 r) as [[b|]|]; [now apply IH | reflexivity | now apply IH].
Qed.

Lemma load_loop_missing (ifs : inter_fs) (r : Z) (ms : list nat) (acc : bucket) :
  (forall m, In m ms -> ifs m r = None) -> load_loop ifs r ms acc = Ok acc.
Proof.
  induction ms as [|m ms IH]; intros H; [reflexivity|]. cbn [load_loop].
  rewrite (H m (or_introl eq_refl)). apply IH. intros m' Hm'. apply H. now right.
Qed.

(** Property (loading errors).  [Reducer.load_intermediate_data] for reducer
    [r] fails exactly when one of the files [m{m}r{r}.txt], [m < num_mappers],
    exists but is not a complete JSON document, and then with
    [JSONDecodeError] (raised in the master, in [Reducer.__init__]); missing
    files are skipped, so with none of them present [final_dict] is [{}]. *)
Theorem load_intermediate_data_errors (ifs : inter_fs) (num_mappers : nat) (r : Z) :
  (load_intermediate_data ifs num_mappers r = Err JSONDecodeError <->
   exists m, m < num_mappers /\ ifs m r = Some Truncated) /\
  (forall e, load_intermediate_data ifs num_mappers r = Err e -> e = JSONDecodeError) /\
  ((forall m, m < num_mappers -> ifs m r = None) ->
   load_intermediate_data ifs num_mappers r = Ok []).
Proof.
  unfold load_intermediate_data. split; [split|split].
  - intros H. destruct (load_loop_err _ _ _ _ _ H) as [_ [m [Hin Hm]]].
    apply in_seq in Hin. exists m. split; [lia | exact Hm].
  - intros [m [Hm Ht]]. apply (load_loop_truncated _ _ _ _ m); [apply in_seq; lia | exact Ht].
  - intros e H. exact (proj1 (load_loop_err _ _ _ _ _ H)).
  - intros H. apply load_loop_missing. intros m Hin. apply in_seq in Hin. apply H. lia.
Qed.

Lemma load_intermediate_data_errors_witness :
  load_intermediate_data corrupt_first_file 2 0 = Err JSONDecodeError /\
  (exists m, m < 2 /\ corrupt_first_file m 0%Z = Some Truncated).
Proof.
  split; [reflexivity|].
  apply (proj1 (proj1 (load_intermediate_data_errors corrupt_first_file 2 0%Z))).
  reflexivity.
Defined.

(** ** From the emissions to the reducers' dicts *)

Lemma dget_notin_keys {K V} (K_eq_dec : forall x y : K, {x = y} + {x <> y})
    (k : K) (d : list (K * V)) :
  ~ In k (map fst d) -> dget K_eq_dec k d = None.
Proof.
  intros H. destruct (dget K_eq_dec k d) as [v|] eqn:E; [|reflexivity].
  exfalso. apply H. apply dget_in in E. exact (in_map fst _ _ E).
Qed.

Lemma last_write_app (r : Z) (a b : list mevent) :
  last_write r (a ++ b) =
  match last_write r b with Some x => Some x | None => last_write r a end.
Proof.
  induction a as [|e a IH]; cbn [app last_write].
  - destruct (last_write r b); reflexivity.
  - rewrite IH. destruct (last_write r b); reflexivity.
Qed.

Lemma last_write_nowrite (r : Z) (l : list mevent) :
  written_ids l = [] -> last_write r l = None.
Proof.
  induction l as [|e l IH]; intros H; [reflexivity|].
  change (e :: l) with ([e] ++ l) in H. rewrite written_ids_app in H.
  apply app_eq_nil in H as [He Hl]. cbn [last_write]. rewrite (IH Hl).
  destruct e; cbn in He; try reflexivity. discriminate.
Qed.

Lemma last_write_write_evs (r : Z) (md : map_data) :
  NoDup (map fst md) -> last_write r (write_evs md) = dget Z.eq_dec r md.
Proof.
  induction md as [|[r0 b0] md IH]; intros Hnd; [reflexivity|].
  cbn [map fst] in Hnd. apply NoDup_cons_iff in Hnd as [Hr0 Hnd].
  change (write_evs ((r0, b0) :: md)) with ([MAppend r0; MWrite r0 b0] ++ write_evs md).
  rewrite last_write_app, (IH Hnd). cbn [dget].
  destruct (Z.eq_dec r r0) as [->|Hne].
  - rewrite (dget_notin_keys Z.eq_dec r0 md Hr0). cbn [last_write].
    rewrite Z.eqb_refl. reflexivity.
  - destruct (dget Z.eq_dec r md); [reflexivity|]. cbn [last_write].
    replace (Z.eqb r r0) with false by (symmetry; apply Z.eqb_neq; exact Hne).
    reflexivity.
Qed.

Lemma last_write_mid (r : Z) (x y : list mevent) (md : map_data) :
  written_ids x = [] -> written_ids y = [] -> NoDup (map fst md) ->
  last_write r (x ++ write_evs md ++ y) = dget Z.eq_dec r md.
Proof.
  intros Hx Hy Hnd.
  rewrite !last_write_app, (last_write_nowrite r y Hy), (last_write_nowrite r x Hx),
    (last_write_write_evs r md Hnd).
  destruct (dget Z.eq_dec r md); reflexivity.
Qed.

Lemma emit_intermediate_nodup (hash : string -> Z) (R : Z) (md md' : map_data) (k v : string) :
  emit_intermediate hash R md k v = Ok md' -> NoDup (map fst md) -> NoDup (map fst md').
Proof.
  unfold emit_intermediate, partition. destruct (Z.eqb R 0); [discriminate|].
  cbn [rbind]. intros H. injection H as <-. apply dupdate_nodup.
Qed.

Lemma map_lines_nodup (hash : string -> Z) (R : Z) (f : map_fn) (idx : nat)
    (lines : list string) (md md' : map_data) :
  map_lines hash R f idx lines md = Ok md' -> NoDup (map fst md) -> NoDup (map fst md').
Proof.
  revert idx md. induction lines as [|line rest IH]; intros idx md Hrun Hnd;
    cbn [map_lines] in Hrun.
  - now injection Hrun as <-.
  - destruct (emit_all hash R md (f idx (rstrip_nl line))) as [md1|e] eqn:E; [|discriminate].
    cbn [rbind] in Hrun. apply (IH _ _ Hrun). clear Hrun.
    revert md Hnd E. induction (f idx (rstrip_nl line)) as [|[k v] ems IHe];
      intros md Hnd E; cbn [emit_all] in E.
    + now injection E as <-.
    + destruct (emit_intermediate hash R md k v) as [md2|e] eqn:E2; [|discriminate].
      cbn [rbind] in E. apply (IHe md2); [|exact E].
      exact (emit_intermediate_nodup _ _ _ _ _ _ E2 Hnd).
Qed.

Lemma top_trace (hash : string -> Z) (m : Mapper) (md : map_data) :
  map_lines hash (num_reducers m) (map_function m) 0 (input_data m) [] = Ok md ->
  trace_of (Top.start_mapper hash m) =
  [MStatus InProgress; MSort; MPublish; MStatus Done] ++ write_evs md ++ [].
Proof.
  intros H. unfold trace_of. rewrite top_start_mapper_run, H, app_nil_r. reflexivity.
Qed.

Lemma sub_trace (hash : string -> Z) (m : Mapper) (md : map_data) :
  map_lines hash (num_reducers m) (map_function m) 0 (input_data m) [] = Ok md ->
  trace_of (Sub.start_mapper hash m) =
  ([MStatus InProgress] ++ map (fun '(r, _) => MAppend r) md ++ [MSort])
    ++ write_evs md ++ [MPublish; MStatus Done].
Proof.
  intros H. unfold trace_of. rewrite sub_start_mapper_run, H.
  cbn [app]. now rewrite <- !app_assoc.
Qed.

Lemma sub_last_write (hash : string -> Z) (m : Mapper) (md : map_data) (r : Z) :
  map_lines hash (num_reducers m) (map_function m) 0 (input_data m) [] = Ok md ->
  last_write r (trace_of (Sub.start_mapper hash m)) = dget Z.eq_dec r md.
Proof.
  intros H. rewrite (sub_trace _ _ _ H). apply last_write_mid.
  - rewrite !written_ids_app, written_ids_appends. reflexivity.
  - reflexivity.
  - exact (map_lines_nodup _ _ _ _ _ _ _ H (NoDup_nil _)).
Qed.

Lemma top_last_write (hash : string -> Z) (m : Mapper) (md : map_data) (r : Z) :
  map_lines hash (num_reducers m) (map_function m) 0 (input_data m) [] = Ok md ->
  last_write r (trace_of (Top.start_mapper hash m)) = dget Z.eq_dec r md.
Proof.
  intros H. rewrite (top_trace _ _ _ H). apply last_write_mid; [reflexivity | reflexivity |].
  exact (map_lines_nodup _ _ _ _ _ _ _ H (NoDup_nil _)).
Qed.

Lemma fold_runs_seq (tr : Mapper -> list mevent) (l : list Mapper) (a : nat)
    (ifs : inter_fs) (m : nat) (r : Z) :
  map mapper_id l = seq a (length l) ->
  fold_left (fun ifs mp => run_writes (mapper_id mp) ifs (tr mp)) l ifs m r =
  if Nat.leb a m then
    match nth_error l (m - a) with
    | Some mp => match last_write r (tr mp) with Some b => Some (Complete b) | None => ifs m r end
    | None => ifs m r
    end
  else ifs m r.
Proof.
  revert a ifs. induction l as [|mp l IH]; intros a ifs Hids.
  - cbn [fold_left]. destruct (Nat.leb a m); [destruct (m - a); reflexivity | reflexivity].
  - cbn [map length seq] in Hids. injection Hids as Hid Hids.
    cbn [fold_left]. rewrite (IH (S a) _ Hids), !run_writes_at, Hid.
    destruct (Nat.compare_spec m a) as [->|Hlt|Hgt].
    + rewrite Nat.eqb_refl, Nat.leb_refl, Nat.sub_diag.
      replace (Nat.leb (S a) a) with false by (symmetry; apply Nat.leb_gt; lia). reflexivity.
    + replace (Nat.eqb m a) with false by (symmetry; apply Nat.eqb_neq; lia).
      replace (Nat.leb (S a) m) with false by (symmetry; apply Nat.leb_gt; lia).
      replace (Nat.leb a m) with false by (symmetry; apply Nat.leb_gt; lia). reflexivity.
    + replace (Nat.eqb m a) with false by (symmetry; apply Nat.eqb_neq; lia).
      replace (Nat.leb (S a) m) with true by (symmetry; apply Nat.leb_le; lia).
      replace (Nat.leb a m) with true by (symmetry; apply Nat.leb_le; lia).
      replace (m - a) with (S (m - S a)) by lia. reflexivity.
Qed.

Lemma map_phase_none_at (hash : string -> Z) (mappers : list Mapper) (m : nat) (r : Z) :
  map mapper_id mappers = seq 0 (length mappers) ->
  map_phase hash mappers None m r =
  match nth_error mappers m with
  | Some mp => option_map Complete (dget Z.eq_dec r (mapper_output hash mp))
  | None => None
  end.
Proof.
  intros Hids. unfold map_phase. rewrite (fold_runs_seq _ _ 0 _ m r Hids).
  change (Nat.leb 0 m) with true. rewrite Nat.sub_0_r.
  destruct (nth_error mappers m) as [mp|]; [|reflexivity].
  unfold mapper_output.
  destruct (map_lines hash (num_reducers mp) (map_function mp) 0 (input_data mp) [])
    as [md|e] eqn:E.
  - rewrite (sub_last_write _ _ _ r E). destruct (dget Z.eq_dec r md); reflexivity.
  - unfold trace_of. rewrite sub_start_mapper_run, E. reflexivity.
Qed.

Lemma mapper_output_ok (hash : string -> Z) (mp : Mapper) (R : nat) :
  1 <= R -> num_reducers mp = Z.of_nat R ->
  map_lines hash (num_reducers mp) (map_function mp) 0 (input_data mp) []
    = Ok (mapper_output hash mp) /\
  map_data_ok hash (Z.of_nat R) (mapper_output hash mp).
Proof.
  intros HR Hmp.
  destruct (map_lines_ok hash (num_reducers mp) (map_function mp) 0 (input_data mp) []
              ltac:(lia) (map_data_ok_nil _ _)) as [md [E Hok]].
  unfold mapper_output. rewrite E. rewrite Hmp in Hok. now split.
Qed.

Lemma extend_bucket_ok (acc data : bucket) :
  bucket_ok acc -> (forall k vs, In (k, vs) data -> vs <> []) ->
  bucket_ok (extend_bucket acc data).
Proof.
  revert acc. induction data as [|[k vs] data IH]; intros acc Hacc Hd; [exact Hacc|].
  unfold extend_bucket. cbn [fold_left].
  fold (extend_bucket (dupdate string_dec k (fun l => l ++ vs) [] acc) data).
  apply IH; [|intros k' vs' Hin; apply (Hd k' vs'); now right].
  destruct Hacc as [Hnd Hne]. split; [now apply dupdate_nodup|].
  intros k' vs' Hin. apply dupdate_in in Hin as [Hin|[-> [->|[v0 [_ ->]]]]].
  - exact (Hne _ _ Hin).
  - apply (Hd k vs). now left.
  - intros H. apply app_eq_nil in H as [_ H]. exact (Hd k vs (or_introl eq_refl) H).
Qed.

Lemma load_loop_ok (ifs : inter_fs) (r : Z) (ms : list nat) (acc d : bucket) :
  (forall m b, ifs m r = Some (Complete b) -> forall k vs, In (k, vs) b -> vs <> []) ->
  bucket_ok acc -> load_loop ifs r ms acc = Ok d -> bucket_ok d.
Proof.
  intros Hf. revert acc. induction ms as [|m ms IH]; intros acc Hacc Hrun;
    cbn [load_loop] in Hrun.
  - now injection Hrun as <-.
  - destruct (ifs m r) as [[b|]|] eqn:E; [|discriminate|exact (IH _ Hacc Hrun)].
    apply (IH _ (extend_bucket_ok _ _ Hacc (Hf m b E)) Hrun).
Qed.

Lemma dget_values (b : bucket) (key : string) :
  (forall k vs, In (k, vs) b -> vs <> []) ->
  dget string_dec key b = match values_in b key with [] => None | vs => Some vs end.
Proof.
  intros H. unfold values_in. destruct (dget string_dec key b) as [vs|] eqn:E; [|reflexivity].
  apply dget_in in E. destruct vs; [exfalso; exact (H _ _ E eq_refl) | reflexivity].
Qed.

Lemma flat_map_ext_in {A B} (f g : A -> list B) (l : list A) :
  (forall x, In x l -> f x = g x) -> flat_map f l = flat_map g l.
Proof.
  induction l as [|x l IH]; intros H; [reflexivity|]. cbn [flat_map].
  rewrite (H x (or_introl eq_refl)), IH; [reflexivity|]. intros y Hy. apply H. now right.
Qed.

Lemma flat_map_nth_seq {A B} (h : option A -> list B) (l : list A) :
  flat_map (fun m => h (nth_error l m)) (seq 0 (length l)) = flat_map (fun x => h (Some x)) l.
Proof.
  induction l as [|x l IH]; [reflexivity|].
  cbn [length seq flat_map nth_error]. f_equal. rewrite <- seq_shift, <- IH. clear IH.
  induction (seq 0 (length l)) as [|i s IHs]; [reflexivity|]. cbn [map flat_map].
  rewrite IHs. reflexivity.
Qed.

Lemma flat_map_nil_fun {A B} (l : list A) : flat_map (fun _ => @nil B) l = [].
Proof. induction l; [reflexivity | exact IHl]. Qed.

Lemma filter_route (hash : string -> Z) (R r : Z) (key : string) (ems : list (string * string)) :
  map snd (filter (fun e => String.eqb (fst e) key && Z.eqb (Z.modulo (hash (fst e)) R) r) ems) =
  if Z.eqb (Z.modulo (hash key) R) r
  then map snd (filter (fun e => String.eqb (fst e) key) ems) else [].
Proof.
  induction ems as [|[k v] ems IH]; cbn [filter fst].
  - destruct (Z.eqb (Z.modulo (hash key) R) r); reflexivity.
  - destruct (String.eqb k key) eqn:Ek; cbn [andb].
    + apply String.eqb_eq in Ek. subst k. revert IH.
      destruct (Z.eqb (Z.modulo (hash key) R) r); cbn [map snd]; intros ->; reflexivity.
    + exact IH.
Qed.

(** For every reducer id [r] (a [nat] here), the dict [final_dict] that
    reducer [r] loads after a map phase without kills. *)
Lemma grouped_load (hash : string -> Z) (mappers : list Mapper) (R r : nat) :
  1 <= R ->
  map mapper_id mappers = seq 0 (length mappers) ->
  (forall mp, In mp mappers -> num_reducers mp = Z.of_nat R) ->
  exists fd,
    load_intermediate_data (map_phase hash mappers None) (length mappers) (Z.of_nat r) = Ok fd /\
    NoDup (map fst fd) /\
    forall key, dget string_dec key fd =
      if Z.eqb (Z.modulo (hash key) (Z.of_nat R)) (Z.of_nat r)
      then match key_values mappers key with [] => None | vs => Some vs end
      else None.
Proof.
  intros HR Hids HRs.
  set (ifs := map_phase hash mappers None).
  set (rz := Z.of_nat r).
  assert (Hm : forall mp, In mp mappers ->
            map_lines hash (num_reducers mp) (map_function mp) 0 (input_data mp) []
              = Ok (mapper_output hash mp) /\
            map_data_ok hash (Z.of_nat R) (mapper_output hash mp))
    by (intros mp Hin; exact (mapper_output_ok hash mp R HR (HRs mp Hin))).
  assert (Hfile : forall m, ifs m rz =
            match nth_error mappers m with
            | Some mp => option_map Complete (dget Z.eq_dec rz (mapper_output hash mp))
            | None => None
            end) by (intros m; exact (map_phase_none_at hash mappers m rz Hids)).
  assert (Hb : forall m b, ifs m rz = Some (Complete b) ->
            NoDup (map fst b) /\ forall k vs, In (k, vs) b -> vs <> []).
  { intros m b H. rewrite Hfile in H.
    destruct (nth_error mappers m) as [mp|] eqn:Hn; [|discriminate].
    destruct (dget Z.eq_dec rz (mapper_output hash mp)) as [b'|] eqn:E; [|discriminate].
    cbn in H. injection H as <-. apply dget_in in E.
    destruct (proj2 (Hm mp (nth_error_In _ _ Hn))) as [_ Hent].
    destruct (Hent _ _ E) as [_ [Hnd Hk]]. split; [exact Hnd|].
    intros k vs Hin. exact (proj1 (Hk _ _ Hin)). }
  destruct (load_intermediate_data ifs (length mappers) rz) as [fd|e] eqn:Hload.
  2:{ exfalso. unfold load_intermediate_data in Hload.
      destruct (load_loop_err _ _ _ _ _ Hload) as [_ [m [_ Hm']]].
      rewrite Hfile in Hm'. destruct (nth_error mappers m); [|discriminate].
      destruct (dget Z.eq_dec rz _); discriminate. }
  unfold load_intermediate_data in Hload.
  assert (Hok : bucket_ok fd).
  { apply (load_loop_ok ifs rz (seq 0 (length mappers)) [] fd); [|split; [constructor | intros k vs []] | exact Hload].
    intros m b H. exact (proj2 (Hb m b H)). }
  assert (Hvals : forall key, values_in fd key =
            if Z.eqb (Z.modulo (hash key) (Z.of_nat R)) rz then key_values mappers key else []).
  { intros key.
    rewrite (load_loop_values ifs rz _ [] fd key (fun m b H => proj1 (Hb m b H)) Hload).
    cbn [app]. replace (values_in [] key) with (@nil string) by reflexivity. cbn [app].
    rewrite (flat_map_ext (fun m => file_values (ifs m rz) key)
               (fun m => match nth_error mappers m with
                         | Some mp => file_values (option_map Complete
                                        (dget Z.eq_dec rz (mapper_output hash mp))) key
                         | None => []
                         end))
      by (intros m; rewrite Hfile; destruct (nth_error mappers m); reflexivity).
    rewrite (flat_map_nth_seq (fun o => match o with
                                        | Some mp => file_values (option_map Complete
                                                      (dget Z.eq_dec rz (mapper_output hash mp))) key
                                        | None => []
                                        end)).
    unfold key_values.
    rewrite (flat_map_ext_in _
               (fun mp => if Z.eqb (Z.modulo (hash key) (Z.of_nat R)) rz
                          then map snd (filter (fun e => String.eqb (fst e) key)
                                          (emissions (map_function mp) 0 (input_data mp)))
                          else [])).
    - destruct (Z.eqb (Z.modulo (hash key) (Z.of_nat R)) rz);
        [reflexivity | apply flat_map_nil_fun].
    - intros mp Hin. destruct (Hm mp Hin) as [E _].
      transitivity (bucket_vals (mapper_output hash mp) rz key).
      + unfold bucket_vals. destruct (dget Z.eq_dec rz (mapper_output hash mp)); reflexivity.
      + rewrite (map_lines_vals _ _ _ _ _ _ _ rz key E), (HRs mp Hin), filter_route.
        reflexivity. }
  exists fd. split; [reflexivity|]. split; [exact (proj1 Hok)|].
  intros key. rewrite (dget_values fd key (proj2 Hok)), Hvals.
  destruct (Z.eqb (Z.modulo (hash key) (Z.of_nat R)) rz); reflexivity.
Qed.

Lemma reduce_fold_ok (ifs : inter_fs) (num_mappers : nat) (f : reduce_fn) (a n : nat) :
  (forall r, a <= r -> r < a + n -> exists fd, load_intermediate_data ifs num_mappers (Z.of_nat r) = Ok fd) ->
  exists fds, length fds = n /\
    fold_right
      (fun r acc =>
         fd <- load_intermediate_data ifs num_mappers (Z.of_nat r) ;;
         outs <- acc ;;
         Ok (reduce_loop f fd [] :: outs))
      (Ok []) (seq a n) = Ok (map (fun fd => reduce_loop f fd []) fds) /\
    forall i fd, nth_error fds i = Some fd ->
      load_intermediate_data ifs num_mappers (Z.of_nat (a + i)) = Ok fd.
Proof.
  revert a. induction n as [|n IH]; intros a H.
  - exists []. split; [reflexivity|]. split; [reflexivity|]. intros [|i] fd Hi; discriminate.
  - destruct (H a) as [fd Hfd]; [lia | lia|].
    destruct (IH (S a)) as [fds [Hl [Hf Hn]]]; [intros r Hr1 Hr2; apply H; lia|].
    exists (fd :: fds). cbn [seq fold_right]. rewrite Hfd, Hf. cbn [rbind].
    split; [cbn; congruence|]. split; [reflexivity|].
    intros [|i] fd' Hi; cbn [nth_error] in Hi.
    + injection Hi as <-. now rewrite Nat.add_0_r.
    + rewrite <- (Hn i fd' Hi). f_equal. f_equal. lia.
Qed.

(** Property (a job without failures).  When the mappers of a job are numbered
    [0 .. n-1] in list order, as [Master.start_process] creates them, and
    each is configured with the job's [R >= 1] reducers, the job completes
    with the [R] outputs [reduce_loop f fd []] of the dicts [fd] the
    reducers [0 .. R-1] load, and reducer [r]'s dict holds each key once:
    exactly the keys [k] with [hash(k) % R = r] that some mapper emitted,
    each with all the values emitted for it, mapper by mapper in id order
    and, within a mapper, in emission order. *)
Theorem run_job_groups_by_key (hash : string -> Z) (mappers : list Mapper) (R : nat)
    (f : reduce_fn) :
  1 <= R ->
  map mapper_id mappers = seq 0 (length mappers) ->
  (forall mp, In mp mappers -> num_reducers mp = Z.of_nat R) ->
  exists fds, length fds = R /\
    run_job hash mappers R f None = Ok (map (fun fd => reduce_loop f fd []) fds) /\
    forall r fd, nth_error fds r = Some fd ->
      load_intermediate_data (map_phase hash mappers None) (length mappers) (Z.of_nat r)
        = Ok fd /\
      NoDup (map fst fd) /\
      forall key, dget string_dec key fd =
        if Z.eqb (Z.modulo (hash key) (Z.of_nat R)) (Z.of_nat r)
        then match key_values mappers key with [] => None | vs => Some vs end
        else None.
Proof.
  intros HR Hids HRs.
  destruct (reduce_fold_ok (map_phase hash mappers None) (length mappers) f 0 R)
    as [fds [Hl [Hrun Hn]]].
  { intros r _ _. destruct (grouped_load hash mappers R r HR Hids HRs) as [fd [E _]].
    now exists fd. }
  exists fds. split; [exact Hl|]. split; [exact Hrun|].
  intros r fd Hr. specialize (Hn r fd Hr). cbn [Nat.add] in Hn.
  destruct (grouped_load hash mappers R r HR Hids HRs) as [fd' [E [Hnd Hget]]].
  rewrite Hn in E. injection E as <-. split; [exact Hn|]. split; [exact Hnd | exact Hget].
Qed.

Lemma run_job_groups_by_key_witness :
  exists fds, length fds = 2 /\
    run_job (fun _ => 1%Z) [one_line_mapper2] 2 concat_reduce None
      = Ok (map (fun fd => reduce_loop concat_reduce fd []) fds).
Proof.
  destruct (run_job_groups_by_key (fun _ => 1%Z) [one_line_mapper2] 2 concat_reduce)
    as [fds [Hl [Hrun _]]].
  - lia.
  - reflexivity.
  - intros mp [<-|[]]. reflexivity.
  - exists fds. split; [exact Hl | exact Hrun].
Defined.

(** Property (the two mapper versions).  [Mapper.start_mapper] of [src/map.py]
    and the Python path of [src/src/python/map.py] leave the intermediate
    directory in the same state, whatever it held before and whatever the
    mapper's configuration: they differ only in the order of their status
    updates and of the reducer-id list. *)
Theorem top_sub_same_files (hash : string -> Z) (m : Mapper) (ifs : inter_fs) :
  forall m' r,
    run_writes (mapper_id m) ifs (trace_of (Top.start_mapper hash m)) m' r =
    run_writes (mapper_id m) ifs (trace_of (Sub.start_mapper hash m)) m' r.
Proof.
  intros m' r. rewrite !run_writes_at.
  destruct (map_lines hash (num_reducers m) (map_function m) 0 (input_data m) [])
    as [md|e] eqn:E.
  - rewrite (top_last_write _ _ _ r E), (sub_last_write _ _ _ r E). reflexivity.
  - unfold trace_of. rewrite top_start_mapper_run, sub_start_mapper_run, E. reflexivity.
Qed.

(** ** The supervisor loops *)
Lemma joins_app (i : nat) (a b : list mon_event) : joins i (a ++ b) = joins i a + joins i b.
Proof. unfold joins. now rewrite filter_app, length_app. Qed.

Lemma spawns_app (i : nat) (a b : list mon_event) : spawns i (a ++ b) = spawns i a + spawns i b.
Proof. unfold spawns. now rewrite filter_app, length_app. Qed.

Lemma touches_app (i : nat) (a b : list mon_event) : touches i (a ++ b) = touches i a || touches i b.
Proof. unfold touches. apply existsb_app. Qed.

Lemma mappers_pass_at (recv : receiver) (idx : nat) (st : list bool) (j : nat) :
  nth_error (fst (mappers_pass recv idx st)) j =
  match nth_error st j with
  | Some true => Some (match recv (idx + j) with Some Done => false | _ => true end)
  | o => o
  end.
Proof.
  revert idx j. induction st as [|b st IH]; intros idx j; cbn [mappers_pass].
  - destruct j; reflexivity.
  - specialize (IH (S idx)). destruct (mappers_pass recv (S idx) st) as [st' ev] eqn:E.
    destruct j as [|j].
    + rewrite Nat.add_0_r. destruct b; [destruct (recv idx) as [[|]|]|]; reflexivity.
    + specialize (IH j). cbn [fst] in IH. replace (S idx + j) with (idx + S j) in IH by lia.
      destruct b; [destruct (recv idx) as [[|]|]|]; exact IH.
Qed.

Lemma mappers_pass_counts (recv : receiver) (idx : nat) (st : list bool) (i : nat) :
  joins i (snd (mappers_pass recv idx st)) =
    (if Nat.leb idx i then
       match nth_error st (i - idx) with
       | Some true => match recv i with Some Done => 1 | _ => 0 end
       | _ => 0
       end
     else 0) /\
  spawns i (snd (mappers_pass recv idx st)) =
    (if Nat.leb idx i then
       match nth_error st (i - idx) with
       | Some true => match recv i with None => 1 | _ => 0 end
       | _ => 0
       end
     else 0) /\
  (touches i (snd (mappers_pass recv idx st)) = true ->
   idx <= i /\ nth_error st (i - idx) = Some true).
Proof.
  revert idx. induction st as [|b st IH]; intros idx; cbn [mappers_pass].
  - cbn [snd]. destruct (Nat.leb idx i); [destruct (i - idx)|]; repeat split; discriminate.
  - specialize (IH (S idx)). destruct (mappers_pass recv (S idx) st) as [st' ev] eqn:E.
    cbn [snd] in IH. destruct IH as [IHj [IHs IHt]].
    destruct (Nat.compare_spec i idx) as [->|Hlt|Hgt].
    + rewrite Nat.leb_refl, Nat.sub_diag in *.
      replace (Nat.leb (S idx) idx) with false in * by (symmetry; apply Nat.leb_gt; lia).
      assert (Ht : touches idx ev = false).
      { destruct (touches idx ev); [|reflexivity]. destruct (IHt eq_refl). lia. }
      destruct b; [destruct (recv idx) as [[|]|]|]; cbn [snd nth_error];
        rewrite ?joins_app, ?spawns_app, ?touches_app;
        change (MonJoin idx :: ev) with ([MonJoin idx] ++ ev);
        rewrite ?joins_app, ?spawns_app, ?touches_app, ?IHj, ?IHs, ?Ht;
        unfold joins, spawns, touches; cbn; rewrite ?Nat.eqb_refl; cbn;
        repeat split; try reflexivity; try discriminate; try lia.
    + replace (Nat.leb idx i) with false by (symmetry; apply Nat.leb_gt; lia).
      replace (Nat.leb (S idx) i) with false in * by (symmetry; apply Nat.leb_gt; lia).
      assert (Ht : touches i ev = false).
      { destruct (touches i ev); [|reflexivity]. destruct (IHt eq_refl). lia. }
      assert (Hne : Nat.eqb idx i = false) by (apply Nat.eqb_neq; lia).
      destruct b; [destruct (recv idx) as [[|]|]|]; cbn [snd];
        try change (MonJoin idx :: ev) with ([MonJoin idx] ++ ev);
        rewrite ?joins_app, ?spawns_app, ?touches_app, IHj, IHs, Ht;
        unfold joins, spawns, touches; cbn; rewrite ?Hne; cbn;
        repeat split; try reflexivity; match goal with H : false = true |- _ => discriminate H end.
    + replace (Nat.leb idx i) with true by (symmetry; apply Nat.leb_le; lia).
      replace (Nat.leb (S idx) i) with true in * by (symmetry; apply Nat.leb_le; lia).
      replace (i - idx) with (S (i - S idx)) by lia. cbn [nth_error].
      assert (Hne : Nat.eqb idx i = false) by (apply Nat.eqb_neq; lia).
      destruct b; [destruct (recv idx) as [[|]|]|]; cbn [snd];
        try change (MonJoin idx :: ev) with ([MonJoin idx] ++ ev);
        rewrite ?joins_app, ?spawns_app, ?touches_app, IHj, IHs;
        (split; [unfold joins; cbn; rewrite ?Hne; reflexivity|]);
        (split; [unfold spawns; cbn; rewrite ?Hne; reflexivity|]);
        intros Hx; unfold touches in Hx; cbn in Hx; rewrite ?Hne in Hx; cbn in Hx;
        fold (touches i ev) in Hx; destruct (IHt Hx) as [H1 H2]; (split; [lia | exact H2]).
Qed.

Lemma reducers_pass_at (recv : receiver) (idx : nat) (st : list bool) (j : nat) :
  nth_error (fst (reducers_pass recv idx st)) j =
  match nth_error st j with
  | Some true => Some (match recv (idx + j) with Some Done => false | _ => true end)
  | o => o
  end.
Proof.
  revert idx j. induction st as [|b st IH]; intros idx j; cbn [reducers_pass].
  - destruct j; reflexivity.
  - specialize (IH (S idx)). destruct (reducers_pass recv (S idx) st) as [st' ev] eqn:E.
    destruct j as [|j].
    + rewrite Nat.add_0_r. destruct b; [destruct (recv idx) as [[|]|]|]; reflexivity.
    + specialize (IH j). cbn [fst] in IH. replace (S idx + j) with (idx + S j) in IH by lia.
      destruct b; [destruct (recv idx) as [[|]|]|]; exact IH.
Qed.

Lemma reducers_pass_counts (recv : receiver) (idx : nat) (st : list bool) (i : nat) :
  joins i (snd (reducers_pass recv idx st)) =
    (if Nat.leb idx i then
       match nth_error st (i - idx) with
       | Some true => match recv i with Some Done => 1 | _ => 0 end
       | _ => 0
       end
     else 0) /\
  (touches i (snd (reducers_pass recv idx st)) = true ->
   idx <= i /\ nth_error st (i - idx) = Some true).
Proof.
  revert idx. induction st as [|b st IH]; intros idx; cbn [reducers_pass].
  - cbn [snd]. destruct (Nat.leb idx i); [destruct (i - idx)|]; repeat split; discriminate.
  - specialize (IH (S idx)). destruct (reducers_pass recv (S idx) st) as [st' ev] eqn:E.
    cbn [snd] in IH. destruct IH as [IHj IHt].
    destruct (Nat.compare_spec i idx) as [->|Hlt|Hgt].
    + rewrite Nat.leb_refl, Nat.sub_diag in *.
      replace (Nat.leb (S idx) idx) with false in * by (symmetry; apply Nat.leb_gt; lia).
      assert (Ht : touches idx ev = false).
      { destruct (touches idx ev); [|reflexivity]. destruct (IHt eq_refl). lia. }
      destruct b; [destruct (recv idx) as [[|]|]|]; cbn [snd nth_error];
        change (MonJoin idx :: ev) with ([MonJoin idx] ++ ev);
        rewrite ?joins_app, ?touches_app, ?IHj, ?Ht;
        unfold joins, touches; cbn; rewrite ?Nat.eqb_refl; cbn;
        repeat split; try reflexivity; try discriminate; try lia.
    + replace (Nat.leb idx i) with false by (symmetry; apply Nat.leb_gt; lia).
      replace (Nat.leb (S idx) i) with false in * by (symmetry; apply Nat.leb_gt; lia).
      assert (Ht : touches i ev = false).
      { destruct (touches i ev); [|reflexivity]. destruct (IHt eq_refl). lia. }
      assert (Hne : Nat.eqb idx i = false) by (apply Nat.eqb_neq; lia).
      destruct b; [destruct (recv idx) as [[|]|]|]; cbn [snd];
        try change (MonJoin idx :: ev) with ([MonJoin idx] ++ ev);
        rewrite ?joins_app, ?touches_app, IHj, Ht;
        unfold joins, touches; cbn; rewrite ?Hne; cbn;
        repeat split; try reflexivity; match goal with H : false = true |- _ => discriminate H end.
    + replace (Nat.leb idx i) with true by (symmetry; apply Nat.leb_le; lia).
      replace (Nat.leb (S idx) i) with true in * by (symmetry; apply Nat.leb_le; lia).
      replace (i - idx) with (S (i - S idx)) by lia. cbn [nth_error].
      assert (Hne : Nat.eqb idx i = false) by (apply Nat.eqb_neq; lia).
      destruct b; [destruct (recv idx) as [[|]|]|]; cbn [snd];
        try change (MonJoin idx :: ev) with ([MonJoin idx] ++ ev);
        rewrite ?joins_app, ?touches_app, IHj;
        (split; [unfold joins; cbn; rewrite ?Hne; reflexivity|]);
        intros Hx; unfold touches in Hx; cbn in Hx; rewrite ?Hne in Hx; cbn in Hx;
        fold (touches i ev) in Hx; destruct (IHt Hx) as [H1 H2]; (split; [lia | exact H2]).
Qed.

Lemma existsb_active (st : list bool) (i : nat) :
  existsb (fun b => b) st = false -> nth_error st i <> Some true.
Proof.
  intros Hex Hi. apply nth_error_In in Hi.
  assert (H : existsb (fun b => b) st = true) by (apply existsb_exists; now exists true).
  congruence.
Qed.

Lemma active_existsb (st : list bool) (i : nat) :
  nth_error st i = Some true -> existsb (fun b => b) st = true.
Proof. intros Hi. apply existsb_exists. exists true. split; [exact (nth_error_In _ _ Hi) | reflexivity]. Qed.

(** Property (the map supervisor, on exit).  When [Master.monitor_mappers]
    returns, it has joined every mapper that was active when it started
    exactly once, and it never acted on, nor printed about, a mapper that
    was not active. *)
Theorem monitor_mappers_joins_each_once (fuel p : nat) (recvs : nat -> receiver)
    (st : list bool) (evs : list mon_event) :
  monitor_mappers fuel p recvs st = (true, evs) ->
  forall i, joins i evs = (match nth_error st i with Some true => 1 | _ => 0 end) /\
            (nth_error st i <> Some true -> touches i evs = false).
Proof.
  revert p st evs. induction fuel as [|fuel IH]; intros p st evs H i; cbn [monitor_mappers] in H;
    destruct (existsb (fun b => b) st) eqn:Ex.
  - discriminate.
  - injection H as <-. pose proof (existsb_active st i Ex) as Hi.
    destruct (nth_error st i) as [[|]|]; [congruence | split; reflexivity | split; reflexivity].
  - destruct (mappers_pass (recvs p) 0 st) as [st' ev] eqn:E.
    destruct (monitor_mappers fuel (S p) recvs st') as [fin ev'] eqn:E'.
    injection H as -> <-. destruct (IH _ _ _ E' i) as [IHj IHt].
    pose proof (mappers_pass_counts (recvs p) 0 st i) as [Cj [_ Ct]].
    pose proof (mappers_pass_at (recvs p) 0 st i) as At.
    rewrite E in Cj, Ct, At. cbn [fst snd] in Cj, Ct, At.
    change (Nat.leb 0 i) with true in Cj. rewrite Nat.sub_0_r in Cj, Ct.
    rewrite At in IHj, IHt. rewrite joins_app, touches_app, Cj, IHj. cbn [Nat.add] in *.
    split.
    + destruct (nth_error st i) as [[|]|]; [|reflexivity|reflexivity].
      destruct (recvs p i) as [[|]|]; reflexivity.
    + intros Hn. rewrite IHt.
      * destruct (touches i ev); [destruct (Ct eq_refl); congruence | reflexivity].
      * destruct (nth_error st i) as [[|]|]; [congruence | discriminate | discriminate].
  - injection H as <-. pose proof (existsb_active st i Ex) as Hi.
    destruct (nth_error st i) as [[|]|]; [congruence | split; reflexivity | split; reflexivity].
Qed.

(** A concrete run: the mapper reports Done in the first pass. *)
Lemma monitor_mappers_joins_each_once_witness :
  monitor_mappers 2 0 (fun _ _ => Some Done) [true] = (true, [MonJoin 0]) /\
  joins 0 [MonJoin 0] = 1.
Proof.
  split; [reflexivity|].
  exact (proj1 (monitor_mappers_joins_each_once 2 0 (fun _ _ => Some Done) [true]
                  [MonJoin 0] eq_refl 0)).
Defined.

(** Property (the map supervisor, a silent mapper).  A mapper that is active
    and whose status queue never yields a message within the timeout keeps
    [Master.monitor_mappers] from returning, and is restarted once per pass
    by [retry_mapper]: there is no bound on the number of restarts. *)
Theorem monitor_mappers_restarts_silent_mapper (fuel p : nat) (recvs : nat -> receiver)
    (st : list bool) (i : nat) :
  nth_error st i = Some true -> (forall q, recvs q i = None) ->
  fst (monitor_mappers fuel p recvs st) = false /\
  spawns i (snd (monitor_mappers fuel p recvs st)) = fuel.
Proof.
  revert p st. induction fuel as [|fuel IH]; intros p st Hi Hr; cbn [monitor_mappers];
    rewrite (active_existsb st i Hi); [split; reflexivity|].
  destruct (mappers_pass (recvs p) 0 st) as [st' ev] eqn:E.
  pose proof (mappers_pass_counts (recvs p) 0 st i) as [_ [Cs _]].
  pose proof (mappers_pass_at (recvs p) 0 st i) as At.
  rewrite E in Cs, At. cbn [fst snd] in Cs, At.
  change (Nat.leb 0 i) with true in Cs. rewrite Nat.sub_0_r in Cs. cbn [Nat.add] in At.
  rewrite Hi, Hr in Cs, At.
  destruct (IH (S p) st' At Hr) as [IHf IHs].
  destruct (monitor_mappers fuel (S p) recvs st') as [fin ev'] eqn:E'.
  cbn [fst snd] in *. split; [exact IHf|]. rewrite spawns_app, Cs, IHs. reflexivity.
Qed.

Lemma monitor_mappers_restarts_silent_mapper_witness :
  fst (monitor_mappers 3 0 never_answers [true; false] ) = false /\
  spawns 0 (snd (monitor_mappers 3 0 never_answers [true; false])) = 3.
Proof.
  apply (monitor_mappers_restarts_silent_mapper 3 0 never_answers [true; false] 0);
    [reflexivity | intros q; reflexivity].
Defined.

(** Property (the reduce supervisor, on exit).  When [Master.monitor_reducers]
    returns, it has joined every reducer that was active when it started
    exactly once, and it never acted on a reducer that was not active. *)
Theorem monitor_reducers_joins_each_once (fuel p : nat) (recvs : nat -> receiver)
    (st : list bool) (evs : list mon_event) :
  monitor_reducers fuel p recvs st = (true, evs) ->
  forall i, joins i evs = (match nth_error st i with Some true => 1 | _ => 0 end) /\
            (nth_error st i <> Some true -> touches i evs = false).
Proof.
  revert p st evs. induction fuel as [|fuel IH]; intros p st evs H i; cbn [monitor_reducers] in H;
    destruct (existsb (fun b => b) st) eqn:Ex.
  - discriminate.
  - injection H as <-. pose proof (existsb_active st i Ex) as Hi.
    destruct (nth_error st i) as [[|]|]; [congruence | split; reflexivity | split; reflexivity].
  - destruct (reducers_pass (recvs p) 0 st) as [st' ev] eqn:E.
    destruct (monitor_reducers fuel (S p) recvs st') as [fin ev'] eqn:E'.
    injection H as -> <-. destruct (IH _ _ _ E' i) as [IHj IHt].
    pose proof (reducers_pass_counts (recvs p) 0 st i) as [Cj Ct].
    pose proof (reducers_pass_at (recvs p) 0 st i) as At.
    rewrite E in Cj, Ct, At. cbn [fst snd] in Cj, Ct, At.
    change (Nat.leb 0 i) with true in Cj. rewrite Nat.sub_0_r in Cj, Ct.
    rewrite At in IHj, IHt. rewrite joins_app, touches_app, Cj, IHj. cbn [Nat.add] in *.
    split.
    + destruct (nth_error st i) as [[|]|]; [|reflexivity|reflexivity].
      destruct (recvs p i) as [[|]|]; reflexivity.
    + intros Hn. rewrite IHt.
      * destruct (touches i ev); [destruct (Ct eq_refl); congruence | reflexivity].
      * destruct (nth_error st i) as [[|]|]; [congruence | discriminate | discriminate].
  - injection H as <-. pose proof (existsb_active st i Ex) as Hi.
    destruct (nth_error st i) as [[|]|]; [congruence | split; reflexivity | split; reflexivity].
Qed.

(** A concrete run: reducer 0 is slow once, reducer 1 is done at once. *)
Lemma monitor_reducers_joins_each_once_witness :
  monitor_reducers 3 0
    (fun q i => match q, i with 0, 0 => None | _, _ => Some Done end) [true; true]
    = (true, [MonJoin 1; MonJoin 0]) /\
  joins 0 [MonJoin 1; MonJoin 0] = 1.
Proof.
  split; [reflexivity|].
  exact (proj1 (monitor_reducers_joins_each_once 3 0
                  (fun q i => match q, i with 0, 0 => None | _, _ => Some Done end)
                  [true; true] [MonJoin 1; MonJoin 0] eq_refl 0)).
Defined.

(** ** The example jobs *)
Lemma string_of_uint_digits (u : Decimal.uint) (c : ascii) :
  In c (list_ascii_of_string (NilEmpty.string_of_uint u)) -> is_digit c = true.
Proof.
  induction u; cbn [NilEmpty.string_of_uint list_ascii_of_string In]; intros H;
    try contradiction; destruct H as [<-|H]; auto.
Qed.

Lemma py_digits (u : Decimal.uint) :
  list_ascii_of_string (NilZero.string_of_uint u) <> [] /\
  (forall d, In d (list_ascii_of_string (NilZero.string_of_uint u)) -> is_digit d = true) /\
  exists u', NilEmpty.uint_of_string (NilZero.string_of_uint u) = Some u' /\
             Z.of_uint u' = Z.of_uint u.
Proof.
  destruct u;
    [split; [discriminate|]; split; [intros d [<-|[]]; reflexivity|];
     exists (Decimal.D0 Decimal.Nil); split; reflexivity | ..];
    (split; [discriminate|]);
    (split; [intros d Hd; exact (string_of_uint_digits _ d Hd)|]);
    (eexists; split; [apply NilEmpty.usu | reflexivity]).
Qed.

Lemma drop_while_keep (p : ascii -> bool) (l : list ascii) :
  (forall c, In c l -> p c = false) -> drop_while p l = l.
Proof.
  destruct l as [|c l]; intros H; [reflexivity|]. cbn [drop_while].
  rewrite (H c (or_introl eq_refl)). reflexivity.
Qed.

Lemma strip_by_keep (p : ascii -> bool) (l : list ascii) :
  (forall c, In c l -> p c = false) -> strip_by p l = l.
Proof.
  intros H. unfold strip_by. rewrite (drop_while_keep p l H), drop_while_keep, rev_involutive;
    [reflexivity|].
  intros c Hc. apply H. apply in_rev. exact Hc.
Qed.

Lemma digit_not_int_space (c : ascii) : is_digit c = true -> is_int_space c = false.
Proof.
  intros H. destruct c as [[][][][][][][][]]; vm_compute in H |- *;
    first [reflexivity | discriminate H].
Qed.

Lemma digits_ok_true (l : list ascii) :
  (forall c, In c l -> is_digit c = true) -> digits_ok true l = true.
Proof.
  induction l as [|c l IH]; intros H; [reflexivity|]. cbn [digits_ok].
  rewrite (H c (or_introl eq_refl)). apply IH. intros d Hd. apply H. now right.
Qed.

Lemma filter_digits_keep (l : list ascii) :
  (forall c, In c l -> is_digit c = true) -> filter is_digit l = l.
Proof.
  induction l as [|c l IH]; intros H; [reflexivity|]. cbn [filter].
  rewrite (H c (or_introl eq_refl)), IH; [reflexivity|]. intros d Hd. apply H. now right.
Qed.

Lemma filter_drop_while (p q : ascii -> bool) (l : list ascii) :
  (forall c, p c = true -> q c = false) -> filter q (drop_while p l) = filter q l.
Proof.
  intros H. induction l as [|c l IH]; [reflexivity|]. cbn [drop_while].
  destruct (p c) eqn:E; [|reflexivity]. cbn [filter]. rewrite (H c E). exact IH.
Qed.

Lemma filter_rev' (q : ascii -> bool) (l : list ascii) : filter q (rev l) = rev (filter q l).
Proof.
  induction l as [|c l IH]; [reflexivity|]. cbn [rev filter].
  rewrite filter_app, IH. cbn [filter]. destruct (q c); [reflexivity|].
  now rewrite app_nil_r.
Qed.

Lemma digit_count_strip (l : list ascii) :
  length (filter is_digit (strip_by is_int_space l)) = length (filter is_digit l).
Proof.
  assert (H : forall c, is_int_space c = true -> is_digit c = false).
  { intros c Hc. destruct (is_digit c) eqn:E; [|reflexivity].
    rewrite (digit_not_int_space c E) in Hc. discriminate. }
  unfold strip_by. rewrite filter_rev', length_rev, filter_drop_while, filter_rev',
    length_rev, filter_drop_while by exact H. reflexivity.
Qed.

(** [int()] under a limit: the unlimited parse, unless the digits exceed
    the limit. *)
Lemma py_int_limit (max_digits : nat) (s : string) :
  py_int max_digits s =
  if digits_allowed max_digits (digit_count s) then py_int 0 s else None.
Proof.
  unfold py_int, digit_count. rewrite <- (digit_count_strip (list_ascii_of_string s)).
  destruct (strip_by is_int_space (list_ascii_of_string s)) as [|c b].
  - cbn. destruct (digits_allowed max_digits 0); reflexivity.
  - destruct (Ascii.eqb c "-"%char) eqn:E1; [|destruct (Ascii.eqb c "+"%char) eqn:E2].
    + apply Ascii.eqb_eq in E1. subst c. cbn beta iota.
      change (filter is_digit ("-"%char :: b)) with (filter is_digit b).
      destruct (digits_ok false b), (digits_allowed max_digits (length (filter is_digit b)));
        reflexivity.
    + apply Ascii.eqb_eq in E2. subst c. cbn beta iota.
      change (filter is_digit ("+"%char :: b)) with (filter is_digit b).
      destruct (digits_ok false b), (digits_allowed max_digits (length (filter is_digit b)));
        reflexivity.
    + cbn beta iota.
      destruct (digits_ok false (c :: b)),
        (digits_allowed max_digits (length (filter is_digit (c :: b)))); reflexivity.
Qed.

Lemma py_int_unsigned (cs : list ascii) :
  cs <> [] -> (forall c, In c cs -> is_digit c = true) ->
  py_int 0 (string_of_list_ascii cs) =
  option_map (fun u => Z.of_int (Decimal.Pos u))
    (NilEmpty.uint_of_string (string_of_list_ascii cs)).
Proof.
  intros Hne H. unfold py_int. rewrite list_ascii_of_string_of_list_ascii.
  rewrite strip_by_keep by (intros c Hc; apply digit_not_int_space; exact (H c Hc)).
  destruct cs as [|c b]; [congruence|].
  assert (Hc : is_digit c = true) by exact (H c (or_introl eq_refl)).
  replace (Ascii.eqb c "-"%char) with false
    by (symmetry; apply Ascii.eqb_neq; intros ->; discriminate Hc).
  replace (Ascii.eqb c "+"%char) with false
    by (symmetry; apply Ascii.eqb_neq; intros ->; discriminate Hc).
  cbn beta iota. rewrite (filter_digits_keep _ H).
  replace (digits_ok false (c :: b)) with true; [reflexivity|].
  symmetry. cbn [digits_ok]. rewrite Hc. apply digits_ok_true. intros d Hd. apply H. now right.
Qed.

Lemma py_int_negative (cs : list ascii) :
  cs <> [] -> (forall c, In c cs -> is_digit c = true) ->
  py_int 0 (String "-" (string_of_list_ascii cs)) =
  option_map (fun u => Z.of_int (Decimal.Neg u))
    (NilEmpty.uint_of_string (string_of_list_ascii cs)).
Proof.
  intros Hne H. unfold py_int. cbn [list_ascii_of_string].
  rewrite list_ascii_of_string_of_list_ascii.
  rewrite strip_by_keep
    by (intros c [<-|Hc]; [reflexivity | apply digit_not_int_space; exact (H c Hc)]).
  change (Ascii.eqb "-"%char "-"%char) with true. cbn beta iota. rewrite (filter_digits_keep _ H).
  destruct cs as [|c b]; [congruence|].
  assert (Hc : is_digit c = true) by exact (H c (or_introl eq_refl)).
  replace (digits_ok false (c :: b)) with true; [reflexivity|].
  symmetry. cbn [digits_ok]. rewrite Hc. apply digits_ok_true. intros d Hd. apply H. now right.
Qed.

Lemma py_int_py_str (z : Z) : py_int 0 (py_str z) = Some z.
Proof.
  unfold py_str. pose proof (DecimalZ.of_to z) as Hz. destruct (Z.to_int z) as [u|u];
    destruct (py_digits u) as [Hne [Hd [u' [Hu' Hz']]]]; cbn [NilZero.string_of_int].
  - rewrite <- (string_of_list_ascii_of_string (NilZero.string_of_uint u)).
    rewrite (py_int_unsigned _ Hne Hd), string_of_list_ascii_of_string, Hu'.
    cbn [option_map]. rewrite <- Hz. cbn [Z.of_int]. now rewrite Hz'.
  - rewrite <- (string_of_list_ascii_of_string (NilZero.string_of_uint u)).
    rewrite (py_int_negative _ Hne Hd), string_of_list_ascii_of_string, Hu'.
    cbn [option_map]. rewrite <- Hz. cbn [Z.of_int]. now rewrite Hz'.
Qed.

(** [int(str(z))] reads [z] back, unless [z] has too many digits. *)
Lemma py_int_py_str_limit (max_digits : nat) (z : Z) :
  py_int max_digits (py_str z) =
  if digits_allowed max_digits (digit_count (py_str z)) then Some z else None.
Proof. rewrite py_int_limit, py_int_py_str. reflexivity. Qed.

Lemma sum_ints_map_py_str (max_digits : nat) (zs : list Z) :
  sum_ints max_digits (map py_str zs) =
  if forallb (fun z => digits_allowed max_digits (digit_count (py_str z))) zs
  then Some (fold_right Z.add 0%Z zs) else None.
Proof.
  induction zs as [|z zs IH]; [reflexivity|]. cbn [map sum_ints fold_right forallb].
  rewrite py_int_py_str_limit, IH.
  destruct (digits_allowed max_digits (digit_count (py_str z))); [|reflexivity].
  destruct (forallb _ zs); reflexivity.
Qed.

Lemma sum_ints_some (max_digits : nat) (vs : list string) (t : Z) :
  sum_ints max_digits vs = Some t <->
  exists zs, map (py_int max_digits) vs = map Some zs /\ t = fold_right Z.add 0%Z zs.
Proof.
  revert t. induction vs as [|v vs IH]; intros t; cbn [sum_ints map].
  - split.
    + intros H. injection H as <-. exists []. split; reflexivity.
    + intros [[|z zs] [H ->]]; [reflexivity | discriminate H].
  - destruct (py_int max_digits v) as [z|] eqn:E.
    + destruct (sum_ints max_digits vs) as [t'|] eqn:Et; cbn [option_map].
      * split.
        -- intros H. injection H as <-. destruct (proj1 (IH t') eq_refl) as [zs [Hzs ->]].
           exists (z :: zs). cbn [map fold_right]. rewrite Hzs. split; reflexivity.
        -- intros [[|z' zs] [H ->]]; [discriminate H|]. cbn [map] in H.
           injection H as Hz Hzs. subst z'.
           assert (Ht : Some t' = Some (fold_right Z.add 0%Z zs)) by (apply IH; now exists zs).
           injection Ht as ->. reflexivity.
      * split; [discriminate|]. intros [[|z' zs] [H _]]; [discriminate H|].
        cbn [map] in H. injection H as _ Hzs.
        assert (Ht : None = Some (fold_right Z.add 0%Z zs)) by (apply IH; now exists zs).
        discriminate Ht.
    + split; [discriminate|]. intros [[|z' zs] [H _]]; discriminate H.
Qed.

Lemma sum_ints_none (max_digits : nat) (vs : list string) :
  sum_ints max_digits vs = None <-> exists v, In v vs /\ py_int max_digits v = None.
Proof.
  induction vs as [|v vs IH]; cbn [sum_ints].
  - split; [discriminate | intros [v [[] _]]].
  - destruct (py_int max_digits v) as [z|] eqn:E.
    + destruct (sum_ints max_digits vs) as [t|] eqn:Et; cbn [option_map].
      * split; [discriminate|]. intros [w [[<-|Hw] Hn]]; [congruence|].
        assert (Hx : Some t = None) by (apply IH; now exists w). discriminate.
      * split; [intros _ | reflexivity]. destruct (proj1 IH eq_refl) as [w [Hw Hn]].
        exists w. split; [now right | exact Hn].
    + split; [intros _ | reflexivity]. exists v. split; [now left | exact E].
Qed.

Lemma word_count_map_pairs (i : nat) (line : string) :
  word_count_map i line = map (fun w => (w, "1"%string)) (line_words line).
Proof.
  unfold line_words. change (word_count_map i line) with (word_count_map 0 line).
  unfold word_count_map. induction (py_split (py_strip line)) as [|word ws IH]; [reflexivity|].
  cbn [flat_map]. destruct (String.eqb (normalize_word word) EmptyString); [exact IH|].
  cbn [app map fst]. f_equal. exact IH.
Qed.

Lemma emissions_word_count (idx : nat) (lines : list string) :
  emissions word_count_map idx lines =
  map (fun w => (w, "1"%string)) (flat_map (fun l => line_words (rstrip_nl l)) lines).
Proof.
  revert idx. induction lines as [|l lines IH]; intros idx; [reflexivity|].
  cbn [emissions flat_map]. rewrite word_count_map_pairs, IH, map_app. reflexivity.
Qed.

Lemma filter_ones (w : string) (ws : list string) :
  map snd (filter (fun e => String.eqb (fst e) w) (map (fun x => (x, "1"%string)) ws)) =
  repeat "1"%string (count_occ string_dec ws w).
Proof.
  induction ws as [|x ws IH]; [reflexivity|]. cbn [map filter fst count_occ].
  destruct (string_dec x w) as [->|Hne].
  - rewrite String.eqb_refl. cbn [map snd repeat]. f_equal. exact IH.
  - replace (String.eqb x w) with false by (symmetry; apply String.eqb_neq; exact Hne).
    exact IH.
Qed.

Lemma key_values_word_count (mappers : list Mapper) (w : string) :
  (forall mp, In mp mappers -> map_function mp = word_count_map) ->
  key_values mappers w = repeat "1"%string (word_occurrences mappers w).
Proof.
  unfold key_values, word_occurrences. induction mappers as [|mp mps IH]; intros H;
    [reflexivity|].
  cbn [flat_map]. rewrite (H mp (or_introl eq_refl)), emissions_word_count, filter_ones,
    count_occ_app, repeat_app, IH; [reflexivity|].
  intros mp' Hin. apply H. now right.
Qed.

Lemma sum_ints_ones (max_digits : nat) (n : nat) :
  sum_ints max_digits (repeat "1"%string n) = Some (Z.of_nat n).
Proof.
  induction n as [|n IH]; [reflexivity|]. cbn [repeat sum_ints].
  replace (py_int max_digits "1"%string) with (Some 1%Z)
    by (rewrite py_int_limit; destruct max_digits; reflexivity).
  rewrite IH. cbn [option_map].
  f_equal. lia.
Qed.

Lemma map_Some_inj (a b : list Z) : map Some a = map Some b -> a = b.
Proof.
  revert b. induction a as [|x a IH]; intros [|y b] H; try discriminate H; [reflexivity|].
  cbn [map] in H. injection H as -> H. f_equal. exact (IH b H).
Qed.

(** Property (word_count_reduce).  With no digit limit ([max_digits = 0]),
    [word_count_reduce] on the decimal strings [str(z)] of any integers
    emits one pair, the key with [str] of their sum; under a limit it does
    so exactly when each [z] and the sum have few enough digits, and raises
    [ValueError] otherwise.  It raises exactly when some value fails
    [int()], or all values parse and [str()] of their total exceeds the
    limit; [int()] fails exactly on a string that is not an integer literal
    or whose digits exceed the limit. *)
Theorem word_count_reduce_sums (max_digits : nat) (key : string) (zs : list Z)
    (vs : list string) :
  word_count_reduce 0 key (map py_str zs) =
    Some [(key, py_str (fold_right Z.add 0%Z zs))] /\
  word_count_reduce max_digits key (map py_str zs) =
    (if forallb (fun z => digits_allowed max_digits (digit_count (py_str z)))
          (fold_right Z.add 0%Z zs :: zs)
     then Some [(key, py_str (fold_right Z.add 0%Z zs))] else None) /\
  (word_count_reduce max_digits key vs = None <->
     (exists v, In v vs /\ py_int max_digits v = None) \/
     (exists zs', map (py_int max_digits) vs = map Some zs' /\
        digits_allowed max_digits (digit_count (py_str (fold_right Z.add 0%Z zs'))) = false)) /\
  (forall v, py_int max_digits v = None <->
     py_int 0 v = None \/ digits_allowed max_digits (digit_count v) = false).
Proof.
  assert (Hmap : forall md, word_count_reduce md key (map py_str zs) =
    (if forallb (fun z => digits_allowed md (digit_count (py_str z)))
          (fold_right Z.add 0%Z zs :: zs)
     then Some [(key, py_str (fold_right Z.add 0%Z zs))] else None)).
  { intros md. unfold word_count_reduce. rewrite sum_ints_map_py_str. cbn [forallb].
    destruct (forallb _ zs); [|now rewrite andb_false_r].
    rewrite andb_true_r. unfold py_str_lim.
    destruct (digits_allowed md (digit_count (py_str (fold_right Z.add 0%Z zs))));
      reflexivity. }
  assert (H0 : forall l, forallb (fun z => digits_allowed 0 (digit_count (py_str z))) l = true)
    by (induction l as [|z l IH]; [reflexivity | exact IH]).
  split; [rewrite Hmap, H0; reflexivity|]. split; [exact (Hmap max_digits)|]. split.
  - unfold word_count_reduce, py_str_lim. rewrite <- sum_ints_none.
    destruct (sum_ints max_digits vs) as [t|] eqn:E.
    + destruct (proj1 (sum_ints_some max_digits vs t) E) as [zs' [Hzs ->]].
      destruct (digits_allowed max_digits _) eqn:Ed.
      * split; [discriminate|]. intros [H|[zs'' [H Hd]]]; [discriminate H|].
        rewrite Hzs in H. apply map_Some_inj in H. subst zs''. congruence.
      * split; [intros _; right; exists zs'; split; assumption | reflexivity].
    + split; [intros _; now left | reflexivity].
  - intros v. rewrite py_int_limit.
    destruct (digits_allowed max_digits (digit_count v)); split; intros H; auto.
    + destruct H as [H|H]; [exact H | discriminate H].
Qed.

(** Under CPython's default limit, [int('1' * 4301)] raises, while
    [int('1' * 4300)] and, without a limit, [int('1' * 4301)] succeed. *)
Lemma py_int_default_limit :
  py_int 4300 (string_of_list_ascii (repeat "1"%char 4301)) = None /\
  py_int 4300 (string_of_list_ascii (repeat "1"%char 4300)) <> None /\
  py_int 0 (string_of_list_ascii (repeat "1"%char 4301)) <> None.
Proof. vm_compute. split; [reflexivity | split; discriminate]. Qed.

(** Property (the word-count job).  In a word-count job whose mappers are
    numbered [0 .. n-1] in list order and configured with [R >= 1]
    reducers, after a map phase without failures, the dict reducer [r]
    loads holds a normalised word [w] exactly when [w] occurs among the
    words of the input lines and [hash(w) % R = r], and then with one ["1"]
    per occurrence; [word_count_reduce] turns that list into [(w, str(n))],
    [n] the number of occurrences. *)
Theorem word_count_job (hash : string -> Z) (mappers : list Mapper) (R : nat) :
  1 <= R ->
  map mapper_id mappers = seq 0 (length mappers) ->
  (forall mp, In mp mappers -> num_reducers mp = Z.of_nat R) ->
  (forall mp, In mp mappers -> map_function mp = word_count_map) ->
  forall r, exists fd,
    load_intermediate_data (map_phase hash mappers None) (length mappers) (Z.of_nat r) = Ok fd /\
    forall w,
      dget string_dec w fd =
        (if Z.eqb (Z.modulo (hash w) (Z.of_nat R)) (Z.of_nat r)
            && Nat.ltb 0 (word_occurrences mappers w)
         then Some (repeat "1"%string (word_occurrences mappers w)) else None) /\
      (forall vs, dget string_dec w fd = Some vs ->
         forall max_digits, word_count_reduce max_digits w vs =
           if digits_allowed max_digits
                (digit_count (py_str (Z.of_nat (word_occurrences mappers w))))
           then Some [(w, py_str (Z.of_nat (word_occurrences mappers w)))] else None).
Proof.
  intros HR Hids HRs Hf r.
  destruct (grouped_load hash mappers R r HR Hids HRs) as [fd [Hload [_ Hget]]].
  exists fd. split; [exact Hload|]. intros w.
  assert (Hw : dget string_dec w fd =
                 (if Z.eqb (Z.modulo (hash w) (Z.of_nat R)) (Z.of_nat r)
                     && Nat.ltb 0 (word_occurrences mappers w)
                  then Some (repeat "1"%string (word_occurrences mappers w)) else None)).
  { rewrite Hget, (key_values_word_count mappers w Hf).
    destruct (Z.eqb (Z.modulo (hash w) (Z.of_nat R)) (Z.of_nat r)); [|reflexivity].
    destruct (word_occurrences mappers w); reflexivity. }
  split; [exact Hw|]. intros vs Hvs. rewrite Hw in Hvs.
  destruct (_ && _); [|discriminate]. injection Hvs as <-. intros max_digits.
  unfold word_count_reduce, py_str_lim. rewrite sum_ints_ones.
  destruct (digits_allowed _ _); reflexivity.
Qed.

Lemma word_count_job_witness :
  exists fd,
    load_intermediate_data (map_phase (fun _ => 0%Z) [wc_mapper] None) 1 0 = Ok fd /\
    dget string_dec "a"%string fd = Some ["1"; "1"]%string.
Proof.
  destruct (word_count_job (fun _ => 0%Z) [wc_mapper] 1) with (r := 0) as [fd [Hl Hw]].
  - lia.
  - reflexivity.
  - intros mp [<-|[]]. reflexivity.
  - intros mp [<-|[]]. reflexivity.
  - exists fd. split; [exact Hl|]. rewrite (proj1 (Hw "a"%string)). vm_compute. reflexivity.
Defined.

(** ** The splitter and the mappers' line numbers *)

Lemma py_lines_nil (s : string) : py_lines s = [] <-> s = EmptyString.
Proof.
  split; [|intros ->; reflexivity].
  destruct s as [|c s]; [reflexivity|]. cbn [py_lines].
  destruct (Ascii.eqb c nl); [discriminate|]. destruct (py_lines s); discriminate.
Qed.

Lemma assigned_from_past (N idx : nat) (lines : list string) (i : nat) :
  idx + length lines <= i -> i < N -> assigned_from N idx lines i = [].
Proof.
  revert idx. induction lines as [|l r IH]; intros idx H1 H2; [reflexivity|].
  cbn [assigned_from length] in *. rewrite Nat.mod_small by lia.
  replace (Nat.eqb idx i) with false by (symmetry; apply Nat.eqb_neq; lia).
  apply IH; lia.
Qed.

Lemma assigned_from_present (N idx : nat) (lines : list string) (i : nat) :
  idx <= i < idx + length lines -> i < N -> assigned_from N idx lines i <> [].
Proof.
  revert idx. induction lines as [|l r IH]; intros idx H1 H2; cbn [length] in H1; [lia|].
  cbn [assigned_from]. destruct (Nat.eq_dec idx i) as [->|Hne].
  - rewrite Nat.mod_small, Nat.eqb_refl by lia. discriminate.
  - destruct (Nat.eqb (idx mod N) i); [discriminate|]. cbn [app]. apply IH; lia.
Qed.

Lemma shard_lines_assigned (N : nat) (text : string) (fs : shard_fs) (i : nat) :
  (forall i, fs i =
     match assigned_from N 0 (py_lines text) i with
     | [] => fs_empty i
     | ls => Some (String.append (match fs_empty i with Some c => c | None => EmptyString end)
                                 (str_concat ls))
     end) ->
  shard_lines fs i = assigned_from N 0 (py_lines text) i.
Proof.
  intros Hfs. unfold shard_lines. rewrite Hfs.
  destruct (assigned_from N 0 (py_lines text) i) as [|x xs] eqn:E; [reflexivity|].
  cbn [fs_empty String.append]. rewrite <- E. apply py_lines_concat.
  apply Forall_forall. intros y Hy.
  destruct (assigned_from_in _ _ _ _ _ Hy) as [l [Hl ->]].
  exact (normalize_py_line _ _ Hl).
Qed.

Lemma construct_mappers_all (fs : shard_fs) (files : list nat) :
  (forall i, In i files -> fs i <> None) ->
  construct_mappers fs files = Ok (map (shard_lines fs) files).
Proof.
  induction files as [|i files IH]; intros H; [reflexivity|]. cbn [construct_mappers].
  unfold mapper_read_shard. destruct (fs i) as [c|] eqn:E.
  - cbn [rbind]. rewrite IH by (intros j Hj; apply H; now right). cbn [rbind map].
    assert (Hs : shard_lines fs i = py_lines c) by (unfold shard_lines; now rewrite E).
    rewrite Hs. reflexivity.
  - exfalso. exact (H i (or_introl eq_refl) E).
Qed.

Lemma construct_mappers_missing (fs : shard_fs) (files : list nat) (i : nat) :
  In i files -> fs i = None -> construct_mappers fs files = Err FileNotFoundError.
Proof.
  induction files as [|j files IH]; intros Hin Hi; [destruct Hin|]. cbn [construct_mappers].
  unfold mapper_read_shard. destruct Hin as [->|Hin].
  - rewrite Hi. reflexivity.
  - destruct (fs j); [|reflexivity]. cbn [rbind]. rewrite (IH Hin Hi). reflexivity.
Qed.

(** Property (zero mappers).  [Master.split_input_data] with [num_mappers = 0]
    raises [ZeroDivisionError] ([idx % self.num_mappers]) as soon as the
    input has a line; on an empty input file it completes, with no shard and
    an empty [self.input_files]. *)
Theorem split_input_data_zero_mappers (text : string) :
  split_input_data 0 text =
  if String.eqb text EmptyString then Ok (fs_empty, []) else Err ZeroDivisionError.
Proof.
  unfold split_input_data. destruct (py_lines text) as [|l ls] eqn:E.
  - apply py_lines_nil in E. subst text. reflexivity.
  - replace (String.eqb text EmptyString) with false.
    + reflexivity.
    + symmetry. apply String.eqb_neq. intros ->. discriminate E.
Qed.

(** Property (constructing the mappers).  With [N >= 1] mappers, building the
    [Mapper]s of [Master.start_process] on the shards of the splitter raises
    [FileNotFoundError] exactly when the input has fewer than [N] lines (a
    shard is only created by its first line); otherwise mapper [i] gets the
    lines of shard [i]. *)
Theorem construct_mappers_after_split (N : nat) (text : string) :
  1 <= N ->
  exists fs, split_input_data N text = Ok (fs, seq 0 N) /\
    construct_mappers fs (seq 0 N) =
      if Nat.ltb (length (py_lines text)) N then Err FileNotFoundError
      else Ok (map (shard_lines fs) (seq 0 N)).
Proof.
  intros HN.
  destruct (split_loop_spec N 0 (py_lines text) fs_empty) as [fs [Hrun Hfs]]; [lia|].
  exists fs. unfold split_input_data. rewrite Hrun. split; [reflexivity|].
  destruct (Nat.ltb (length (py_lines text)) N) eqn:Hlt.
  - apply Nat.ltb_lt in Hlt.
    apply (construct_mappers_missing _ _ (length (py_lines text))).
    + apply in_seq. lia.
    + rewrite Hfs, assigned_from_past by lia. reflexivity.
  - apply Nat.ltb_ge in Hlt. apply construct_mappers_all.
    intros i Hi. apply in_seq in Hi. rewrite Hfs.
    destruct (assigned_from N 0 (py_lines text) i) eqn:E; [|discriminate].
    exfalso. exact (assigned_from_present N 0 (py_lines text) i ltac:(lia) ltac:(lia) E).
Qed.

Lemma emissions_assigned (f : map_fn) (N idx c : nat) (lines : list string) (i : nat) :
  1 <= N -> i < N -> idx <= c * N + i < idx + N ->
  emissions f c (assigned_from N idx lines i) =
  flat_map (fun g => if Nat.eqb (g mod N) i
                     then f (g / N) (rstrip_nl (normalize_line (nth (g - idx) lines EmptyString)))
                     else [])
    (seq idx (length lines)).
Proof.
  revert idx c. induction lines as [|l r IH]; intros idx c HN Hi Hc; [reflexivity|].
  cbn [assigned_from length seq flat_map]. rewrite Nat.sub_diag. cbn [nth].
  rewrite (flat_map_ext_seq _
             (fun g => if Nat.eqb (g mod N) i
                       then f (g / N) (rstrip_nl (normalize_line (nth (g - S idx) r EmptyString)))
                       else []) (S idx) (length r)).
  2:{ intros g Hg. replace (g - idx) with (S (g - S idx)) by lia. reflexivity. }
  destruct (Nat.eqb (idx mod N) i) eqn:E.
  - apply Nat.eqb_eq in E.
    assert (Hq : idx = c * N + i).
    { pose proof (Nat.div_mod idx N ltac:(lia)) as Hd. rewrite E in Hd.
      assert (idx / N = c) by nia. lia. }
    assert (Hdiv : idx / N = c).
    { rewrite Hq, Nat.div_add_l by lia. rewrite Nat.div_small by lia. lia. }
    cbn [app emissions]. rewrite Hdiv. f_equal. apply IH; lia.
  - cbn [app]. apply IH; [lia | lia |].
    assert (idx <> c * N + i).
    { intros Hq. rewrite Hq in E. replace (c * N + i) with (i + c * N) in E by lia.
      rewrite Nat.Div0.mod_add, Nat.mod_small, Nat.eqb_refl in E by lia. discriminate. }
    lia.
Qed.

(** Property (the index passed to the map function).  [start_mapper] numbers
    the lines of its own shard from [0]: input line [g] reaches the map
    function of mapper [g mod N] with index [g / N], not [g].  So
    [inverted_index_map] gives the lines [g] and [g'] of two shards the same
    document id when [g / N = g' / N]. *)
Theorem map_index_in_shard (N : nat) (text : string) (f : map_fn) :
  1 <= N ->
  exists fs, split_input_data N text = Ok (fs, seq 0 N) /\
    forall i, i < N ->
      emissions f 0 (shard_lines fs i) =
      flat_map (fun g => if Nat.eqb (g mod N) i
                         then f (g / N) (rstrip_nl (normalize_line (nth g (py_lines text) EmptyString)))
                         else [])
        (seq 0 (length (py_lines text))).
Proof.
  intros HN.
  destruct (split_loop_spec N 0 (py_lines text) fs_empty) as [fs [Hrun Hfs]]; [lia|].
  exists fs. unfold split_input_data. rewrite Hrun. split; [reflexivity|].
  intros i Hi. rewrite (shard_lines_assigned N text fs i Hfs).
  rewrite (emissions_assigned f N 0 0 (py_lines text) i HN Hi) by lia.
  apply flat_map_ext_seq. intros g _. rewrite Nat.sub_0_r. reflexivity.
Qed.

Lemma construct_mappers_after_split_witness :
  exists fs, split_input_data 4 corpus_abc = Ok (fs, [0; 1; 2; 3]) /\
    construct_mappers fs [0; 1; 2; 3] = Err FileNotFoundError.
Proof.
  destruct (construct_mappers_after_split 4 corpus_abc) as [fs [Hs Hc]]; [lia|].
  exists fs. split; [exact Hs|]. change [0; 1; 2; 3] with (seq 0 4). rewrite Hc. reflexivity.
Defined.

(** Line 1 of ["a\nb\nc"] (the word ["b"]) with two mappers gets the
    document id 0. *)
Lemma map_index_in_shard_witness :
  exists fs, split_input_data 2 corpus_abc = Ok (fs, [0; 1]) /\
    emissions inverted_index_map 0 (shard_lines fs 1) = [("b"%string, "0"%string)].
Proof.
  destruct (map_index_in_shard 2 corpus_abc inverted_index_map) as [fs [Hs He]]; [lia|].
  exists fs. split; [exact Hs|]. rewrite (He 1); [vm_compute; reflexivity | lia].
Defined.

(** ** The example maps and inverted_index_reduce *)

Lemma str_ltb_irrefl (a : string) : str_ltb a a = false.
Proof.
  induction a as [|c a IH]; [reflexivity|]. cbn [str_ltb].
  rewrite Nat.ltb_irrefl, Nat.eqb_refl, IH. reflexivity.
Qed.

Lemma str_ltb_total (a b : string) :
  a <> b -> str_ltb a b = false -> str_ltb b a = true.
Proof.
  revert b. induction a as [|c a IH]; intros b Hne Hab; destruct b as [|d b].
  - congruence.
  - discriminate Hab.
  - reflexivity.
  - cbn [str_ltb] in *. apply orb_false_iff in Hab as [Hlt Heq].
    apply Nat.ltb_ge in Hlt.
    destruct (Nat.eq_dec (nat_of_ascii c) (nat_of_ascii d)) as [E|E].
    + assert (c = d) as <-.
      { rewrite <- (ascii_nat_embedding c), <- (ascii_nat_embedding d), E. reflexivity. }
      rewrite Nat.eqb_refl in Heq |- *. cbn [andb] in Heq.
      rewrite (IH b); [apply orb_true_r | congruence | exact Heq].
    + apply orb_true_iff. left. apply Nat.ltb_lt. lia.
Qed.

Lemma insert_str_perm (x : string) (l : list string) : Permutation (insert_str x l) (x :: l).
Proof.
  induction l as [|y l IH]; [reflexivity|]. cbn [insert_str].
  destruct (str_ltb y x); [|reflexivity].
  transitivity (y :: x :: l); [now constructor | apply perm_swap].
Qed.

Lemma sort_str_perm (l : list string) : Permutation (sort_str l) l.
Proof.
  induction l as [|x l IH]; [reflexivity|]. cbn [sort_str].
  rewrite insert_str_perm. now constructor.
Qed.

Lemma insert_str_hd (x y : string) (l : list string) :
  HdRel (fun a b => str_ltb a b = true) y l -> str_ltb y x = true ->
  HdRel (fun a b => str_ltb a b = true) y (insert_str x l).
Proof.
  destruct l as [|z l]; intros H Hyx; cbn [insert_str]; [now constructor|].
  destruct (str_ltb z x); [|now constructor].
  constructor. exact (HdRel_inv H).
Qed.

Lemma insert_str_sorted (x : string) (l : list string) :
  Sorted (fun a b => str_ltb a b = true) l -> ~ In x l ->
  Sorted (fun a b => str_ltb a b = true) (insert_str x l).
Proof.
  induction l as [|y l IH]; intros Hs Hx; cbn [insert_str]; [now constructor|].
  apply Sorted_inv in Hs as [Hs Hhd].
  destruct (str_ltb y x) eqn:E.
  - constructor; [apply IH; [exact Hs | intros H; apply Hx; now right] |].
    exact (insert_str_hd x y l Hhd E).
  - constructor; [constructor; assumption|]. constructor.
    apply (str_ltb_total y x); [intros ->; apply Hx; now left | exact E].
Qed.

Lemma sort_str_sorted (l : list string) :
  NoDup l -> Sorted (fun a b => str_ltb a b = true) (sort_str l).
Proof.
  induction l as [|x l IH]; intros Hnd; cbn [sort_str]; [constructor|].
  apply NoDup_cons_iff in Hnd as [Hx Hnd]. apply insert_str_sorted; [exact (IH Hnd)|].
  intros H. apply Hx. exact (Permutation_in _ (sort_str_perm l) H).
Qed.

(** Property (inverted_index_reduce).  [inverted_index_reduce] emits one pair:
    the word with the comma-joined list of its document ids, each id once,
    in strictly increasing string order. *)
Theorem inverted_index_reduce_sorted_ids (word : string) (doc_ids : list string) :
  exists ids,
    inverted_index_reduce word doc_ids = [(word, join_comma ids)] /\
    (forall x, In x ids <-> In x doc_ids) /\ NoDup ids /\
    Sorted (fun a b => str_ltb a b = true) ids.
Proof.
  exists (sort_str (nodup string_dec doc_ids)). split; [reflexivity|].
  split; [|split].
  - intros x. split; intros H.
    + apply (nodup_In string_dec). exact (Permutation_in _ (sort_str_perm _) H).
    + apply (Permutation_in _ (Permutation_sym (sort_str_perm _))).
      apply (nodup_In string_dec). exact H.
  - apply (Permutation_NoDup (Permutation_sym (sort_str_perm _))). apply NoDup_nodup.
  - apply sort_str_sorted. apply NoDup_nodup.
Qed.

Lemma str_filter_chars (p : ascii -> bool) (s : string) (c : ascii) :
  In c (list_ascii_of_string (str_filter p s)) -> p c = true /\ In c (list_ascii_of_string s).
Proof.
  induction s as [|d s IH]; cbn [str_filter list_ascii_of_string]; [intros []|].
  destruct (p d) eqn:E; cbn [list_ascii_of_string In].
  - intros [<-|H]; [split; [exact E | now left]|]. destruct (IH H). split; [assumption | now right].
  - intros H. destruct (IH H). split; [assumption | now right].
Qed.

Lemma str_map_chars (f : ascii -> ascii) (s : string) (c : ascii) :
  In c (list_ascii_of_string (str_map f s)) -> exists d, c = f d.
Proof.
  induction s as [|d s IH]; cbn [str_map list_ascii_of_string In]; [intros []|].
  intros [<-|H]; [now exists d | exact (IH H)].
Qed.

Lemma lower_char_idem (d : ascii) : lower_char (lower_char d) = lower_char d.
Proof. destruct d as [[][][][][][][][]]; vm_compute; reflexivity. Qed.

Lemma normalize_word_chars (word : string) (c : ascii) :
  In c (list_ascii_of_string (normalize_word word)) -> is_alnum c = true /\ lower_char c = c.
Proof.
  unfold normalize_word. intros H. apply str_filter_chars in H as [Ha H].
  split; [exact Ha|]. destruct (str_map_chars _ _ _ H) as [d ->]. apply lower_char_idem.
Qed.

Lemma flat_map_words_in (g : string -> list (string * string)) (ws : list string) (k v : string) :
  In (k, v) (flat_map g ws) -> exists word, In (k, v) (g word).
Proof. intros H. apply in_flat_map in H as [w [_ H]]. now exists w. Qed.

(** Property (the example maps).  [word_count_map] and [inverted_index_map]
    emit the same keys for a line; every key is a non-empty string of
    characters that are alphanumeric and their own lowercase (so [lower()]
    and the [isalnum] filter leave it unchanged); the value is ["1"] for the
    word count and [str(doc_id)] for the index. *)
Theorem example_maps_emit_normalised_words (i : nat) (line : string) :
  map fst (inverted_index_map i line) = map fst (word_count_map i line) /\
  (forall k v, In (k, v) (word_count_map i line) -> v = "1"%string) /\
  (forall k v, In (k, v) (inverted_index_map i line) -> v = py_str (Z.of_nat i)) /\
  (forall k v, In (k, v) (word_count_map i line) ->
     k <> EmptyString /\
     forall c, In c (list_ascii_of_string k) -> is_alnum c = true /\ lower_char c = c).
Proof.
  split; [|split; [|split]].
  - unfold inverted_index_map, word_count_map.
    induction (py_split (py_strip line)) as [|w ws IH]; [reflexivity|]. cbn [flat_map].
    rewrite !map_app, IH. destruct (String.eqb (normalize_word w) EmptyString); reflexivity.
  - intros k v H. apply flat_map_words_in in H as [w H]. cbv beta zeta in H. revert H.
    destruct (String.eqb (normalize_word w) EmptyString); intros H; [destruct H|].
    destruct H as [H|[]]. now injection H as _ <-.
  - intros k v H. apply flat_map_words_in in H as [w H]. cbv beta zeta in H. revert H.
    destruct (String.eqb (normalize_word w) EmptyString); intros H; [destruct H|].
    destruct H as [H|[]]. now injection H as _ <-.
  - intros k v H. apply flat_map_words_in in H as [w H]. cbv beta zeta in H. revert H.
    destruct (String.eqb (normalize_word w) EmptyString) eqn:E; intros H; [destruct H|].
    destruct H as [H|[]]. injection H as <- _. split.
    + intros H. rewrite H in E. discriminate E.
    + apply normalize_word_chars.
Qed.
